(** * Claire data preparation: tag-boundary resolution and turn-aware chunking

    A shallow embedding of the token-level core of [prepare_data.py]:
    [common_prefix] / [common_suffix], the resolution of the turn-tag
    boundary tokens, and the chunking of one tokenized text variant
    into segments of [effective_block_size] tokens (the body of the
    innermost loop of [prepare_fn]).

    Token ids are integers ([Z]); a tensor of token ids is a [list Z].
    Python exceptions are values of type [exn]; a computation that may
    raise has type [result A].  The conversion of an array to the
    builder's integer dtype is not modelled: an array holds the token
    ids as they are.  What is written to the builder is recorded as the
    list of emitted segments, which a run keeps even when it ends with
    an exception. *)

From Stdlib Require Import ZArith Lia Ascii String.
From stdpp Require Import base tactics option numbers strings gmap list.

Set Default Proof Using "Type".
#[local] Set Warnings "-clear-no-such-hyp".

(** ** Exceptions and results *)

(** The [assert] statements of [prepare_fn], by source line. *)
Inductive assert_site : Type :=
  | PrefixNonEmpty      (* line 91:  assert len(tag_tokens_prefix) > 0 *)
  | SuffixNonEmpty      (* line 92:  assert len(tag_tokens_suffix) > 0 *)
  | DecodesAsExpected   (* line 95:  assert actual == expected *)
  | WindowNonEmpty      (* line 213: assert iend > istart *)
  | TurnStartFound      (* line 247: assert len(candidates) *)
  | CursorOnTurnStart   (* line 254: assert text_ids[istart] == tag_token_prefix *)
  | CursorAdvanced.     (* line 273: assert istart > previous_istart *)

Inductive exn : Type :=
  | AssertionError (site : assert_site)
  | NotImplementedError
  | IndexError
  | ValueError
  | ArgumentError.      (* the generator's rejection of a negative level *)

(** [OutOfFuel] is not a Python outcome: it marks a loop of the model
    cut short by its fuel.  The totality lemmas below show that the
    fuel the model supplies is never exhausted. *)
Inductive result (A : Type) : Type :=
  | Ok (a : A)
  | Raise (e : exn)
  | OutOfFuel.
Arguments Ok {A} a.
Arguments Raise {A} e.
Arguments OutOfFuel {A}.

(** Sequencing: the first exception raised ends the computation.
    Registered as stdpp's [MBind], which provides [x ← r; k]. *)
#[global] Instance result_bind : MBind result := λ A B k r,
  match r with
  | Ok a => k a
  | Raise e => Raise e
  | OutOfFuel => OutOfFuel
  end.

#[global] Instance assert_site_eq_dec : EqDecision assert_site.
Proof. solve_decision. Defined.
#[global] Instance exn_eq_dec : EqDecision exn.
Proof. solve_decision. Defined.

(** ** Python sequence operations *)

Module Py.

(** [len(l)] as an integer. *)
Definition len {A} (l : list A) : Z := Z.of_nat (length l).

(** A slice bound, normalised as Python does: a negative bound counts
    from the end, and every bound is clipped to [0, len]. *)
Definition clip (n i : Z) : Z :=
  if (i <? 0)%Z then Z.max (i + n) 0 else Z.min i n.

(** [l[a:b]] *)
Definition slice {A} (l : list A) (a b : Z) : list A :=
  let a' := clip (len l) a in
  let b' := clip (len l) b in
  take (Z.to_nat (b' - a')) (drop (Z.to_nat a') l).

(** [l[i]]: negative indices count from the end; out of range raises. *)
Definition get {A} (l : list A) (i : Z) : result A :=
  let j := if (i <? 0)%Z then (i + len l)%Z else i in
  if (j <? 0)%Z then Raise IndexError
  else match l !! Z.to_nat j with
       | Some x => Ok x
       | None => Raise IndexError
       end.

(** [torch.where(l == tok)[0]]: the indices at which [tok] occurs,
    in increasing order. *)
Fixpoint where_from (tok : Z) (l : list Z) (i : Z) : list Z :=
  match l with
  | [] => []
  | x :: r =>
      if (x =? tok)%Z then i :: where_from tok r (i + 1)
      else where_from tok r (i + 1)
  end.
Definition where_eq (l : list Z) (tok : Z) : list Z := where_from tok l 0.

(** [np.pad(a, (0, n - len(a)), constant_values=v)] *)
Definition pad_right (a : list Z) (n v : Z) : list Z :=
  a ++ replicate (Z.to_nat (n - len a)) v.

(** [s.startswith(" ")] *)
Definition startswith_space (s : string) : bool :=
  match s with
  | String c _ => bool_decide (c = " "%char)
  | EmptyString => false
  end.

End Py.

(** ** [common_prefix] and [common_suffix] *)

(** [min([len(l) for l in lists])]; [min] of an empty list raises. *)
Definition min_length (lists : list (list Z)) : result nat :=
  match lists with
  | [] => Raise ValueError
  | l :: ls => Ok (foldr (λ x m, Nat.min (length x) m) (length l) ls)
  end.

(** [all([l[i] == lists[0][i] for l in lists[1:]])].  The loop only
    evaluates it for [i] below [min_length], where every [l[i]] exists. *)
Definition all_agree_at (lists : list (list Z)) (i : nat) : bool :=
  forallb (λ l, bool_decide (l !! i = head lists ≫= (.!! i))) (tail lists).

(** The [while] loop of [common_prefix]: [i] grows while it is below
    [min_length] and every list agrees with the first at [i]. *)
Fixpoint common_prefix_scan (lists : list (list Z)) (min_length : nat)
    (fuel : nat) (i : nat) : result nat :=
  if bool_decide (i < min_length)%nat && all_agree_at lists i then
    match fuel with
    | O => OutOfFuel
    | S fuel' => common_prefix_scan lists min_length fuel' (S i)
    end
  else Ok i.

Definition common_prefix (lists : list (list Z)) : result (list Z) :=
  m ← min_length lists ;
  i ← common_prefix_scan lists m m 0 ;
  Ok (take i (default [] (head lists))).

(** [common_prefix([l[::-1] for l in lists])[::-1]] *)
Definition common_suffix (lists : list (list Z)) : result (list Z) :=
  p ← common_prefix (reverse <$> lists) ;
  Ok (reverse p).

(** ** The tokenizer *)

(** The tokenizer is used as a black box: [encode] is
    [tokenizer.encode(s, bos=False, eos=False).tolist()], [decode] is
    [tokenizer.decode] on a tensor of ids, [eos_id] the end-of-sequence
    id used for padding. *)
Record Tokenizer : Type := {
  encode : string → list Z;
  decode : list Z → string;
  eos_id : Z;
}.

(** [assert cond] at the given site. *)
Definition assert (cond : bool) (site : assert_site) : result () :=
  if cond then Ok () else Raise (AssertionError site).

(** ** Tokens around the turn tags (lines 87-99 of [prepare_fn]) *)

Definition tag_renderings : list string :=
  ["[speaker001:]"; "[Intervenant 1:]"; "[A:]"]%string.

Definition tag_tokens (tok : Tokenizer) : list (list Z) :=
  encode tok <$> tag_renderings.

Definition resolve_tag_tokens (tok : Tokenizer) : result (Z * Z) :=
  tag_tokens_prefix ← common_prefix (tag_tokens tok) ;
  tag_tokens_suffix ← common_suffix (tag_tokens tok) ;
  _ ← assert (0 <? Py.len tag_tokens_prefix)%Z PrefixNonEmpty ;
  _ ← assert (0 <? Py.len tag_tokens_suffix)%Z SuffixNonEmpty ;
  _ ← assert (bool_decide (decode tok tag_tokens_prefix = "["%string))
         DecodesAsExpected ;
  _ ← assert (bool_decide (decode tok tag_tokens_suffix = ":]"%string))
         DecodesAsExpected ;
  if (1 <? Py.len tag_tokens_prefix)%Z || (1 <? Py.len tag_tokens_suffix)%Z
  then Raise NotImplementedError
  else
    tag_token_prefix ← Py.get tag_tokens_prefix 0 ;
    tag_token_suffix ← Py.get tag_tokens_suffix 0 ;
    Ok (tag_token_prefix, tag_token_suffix).

(** ** Cutting one tokenized text in chunks (lines 205-286 of [prepare_fn]) *)

(** The loop variables that survive from one iteration to the next. *)
Record cursor : Type := {
  istart : Z;
  add_prefix : list Z;
}.

(** One array handed to [builder.add_array]: [seg_array].  The other
    fields record where it comes from: the cursor of the iteration, the
    carried prefix put in front, and the slice [text_ids[istart:iend]]
    taken from the text. *)
Record segment : Type := {
  seg_istart : Z;
  seg_prefix : list Z;
  seg_body : list Z;
  seg_array : list Z;
}.

(** What has been emitted, and how the loop ended. *)
Definition run : Type := list segment * result ().

Definition emit (s : segment) (r : run) : run := (s :: r.1, r.2).

Section Chunker.
Local Open Scope Z_scope.

Context (tok : Tokenizer).
Context (tag_token_prefix tag_token_suffix : Z).
Context (padding cut_around_turns : bool).
Context (text_ids : list Z).

(** [iend = istart + effective_block_size - len(add_prefix)] *)
Definition iend (bs : Z) (c : cursor) : Z :=
  istart c + bs - Py.len (add_prefix c).

(** [selec], with the carried prefix in front when there is one. *)
Definition selec (bs : Z) (c : cursor) : list Z :=
  add_prefix c ++ Py.slice text_ids (istart c) (iend bs c).

(** The array after the optional [np.pad]. *)
Definition padded (bs : Z) (a : list Z) : list Z :=
  if padding && (Py.len a <? bs) then Py.pad_right a bs (eos_id tok) else a.

Definition segment_at (bs : Z) (c : cursor) : segment :=
  {| seg_istart := istart c;
     seg_prefix := add_prefix c;
     seg_body := Py.slice text_ids (istart c) (iend bs c);
     seg_array := padded bs (selec bs c) |}.

(** [while not tokenizer.decode(text_ids[istart]).startswith(" "):
       istart -= 1] *)
Fixpoint word_boundary_walk (fuel : nat) (i : Z) : result Z :=
  t ← Py.get text_ids i ;
  if Py.startswith_space (decode tok [t]) then Ok i
  else match fuel with
       | O => OutOfFuel
       | S fuel' => word_boundary_walk fuel' (i - 1)
       end.

(** The token at index [j] of the text decodes to a string that
    starts with a space: where the walk stops. *)
Definition word_start (j : Z) : Prop :=
  ∃ t, text_ids !! Z.to_nat j = Some t ∧
       Py.startswith_space (decode tok [t]) = true.

(** [istart += effective_block_size], then the walk back to a word
    boundary when the new cursor is inside the text. *)
Definition naive_advance (bs : Z) (i : Z) : result Z :=
  let i' := i + bs in
  if i' <? Py.len text_ids
  then word_boundary_walk (Z.to_nat (i' + Py.len text_ids + 1)) i'
  else Ok i'.

(** [text_ids[istart:iend+10]], where the closing tag is searched. *)
Definition lookahead (bs : Z) (c : cursor) : list Z :=
  Py.slice text_ids (istart c) (iend bs c + 10).

(** Lines 240-273: the cursor of the next iteration. *)
Definition next_cursor (bs : Z) (c : cursor) : result cursor :=
  let previous_istart := istart c in
  let selec := lookahead bs c in
  c' ← match last (Py.where_eq selec tag_token_suffix) with
       | Some end_of_turn =>
           match last (Py.where_eq (Py.slice selec 0 end_of_turn)
                         tag_token_prefix) with
           | None => Raise (AssertionError TurnStartFound)
           | Some start_of_turn =>
               if 0 <? start_of_turn then
                 (* Case 1.1: shift to the last turn *)
                 let i := istart c + start_of_turn in
                 t ← Py.get text_ids i ;
                 _ ← assert (t =? tag_token_prefix) CursorOnTurnStart ;
                 Ok {| istart := i; add_prefix := [] |}
               else
                 (* Case 1.2: same big turn, or the last turn *)
                 i ← naive_advance bs (istart c) ;
                 Ok {| istart := i;
                       add_prefix := Py.slice selec 0 (end_of_turn + 1) |}
           end
       | None =>
           (* Case 2: no end of turn in sight *)
           i ← naive_advance bs (istart c) ;
           Ok {| istart := i; add_prefix := add_prefix c |}
       end ;
  _ ← assert (previous_istart <? istart c') CursorAdvanced ;
  Ok c'.

(** The [while istart < len(text_ids)] loop. *)
Fixpoint chunk_loop (bs : Z) (fuel : nat) (c : cursor) : run :=
  if istart c <? Py.len text_ids then
    match fuel with
    | O => ([], OutOfFuel)
    | S fuel' =>
        if negb (istart c <? iend bs c)
        then ([], Raise (AssertionError WindowNonEmpty))
        else if negb cut_around_turns && (Py.len (selec bs c) <=? 10)
        then ([], Ok ())                    (* leave too short tails *)
        else if negb cut_around_turns
        then emit (segment_at bs c)
               (chunk_loop bs fuel'
                  {| istart := istart c + bs; add_prefix := add_prefix c |})
        else match next_cursor bs c with
             | Ok c' => emit (segment_at bs c) (chunk_loop bs fuel' c')
             | Raise e => ([segment_at bs c], Raise e)
             | OutOfFuel => ([segment_at bs c], OutOfFuel)
             end
    end
  else ([], Ok ()).

(** Token [i] of the text lies in the own content of a segment (its
    body, not its carried prefix or its padding), at its place. *)
Definition covered (segs : list segment) (i : Z) : Prop :=
  ∃ s, s ∈ segs ∧
       seg_istart s ≤ i < seg_istart s + Py.len (seg_body s) ∧
       seg_body s !! Z.to_nat (i - seg_istart s) = text_ids !! Z.to_nat i.

(** The length of the final fragment that naive cutting leaves out of
    a text of [n] tokens: the remainder of [n] by the block size when
    it is at most 10. *)
Definition dropped_tail (bs n : Z) : Z :=
  if n `mod` bs <=? 10 then n `mod` bs else 0.

(** Python truth value of [effective_block_size]. *)
Definition is_set (effective_block_size : option Z) : bool :=
  match effective_block_size with
  | Some bs => negb (bs =? 0)
  | None => false
  end.

(** The [else] branch: the whole text as one array. *)
Definition whole_text (effective_block_size : option Z) : segment :=
  {| seg_istart := 0;
     seg_prefix := [];
     seg_body := text_ids;
     seg_array :=
       match effective_block_size with
       | Some bs =>
           if negb (bs =? 0) && padding && (Py.len text_ids <? bs)
           then Py.pad_right text_ids bs (eos_id tok)
           else text_ids
       | None => text_ids
       end |}.

(** Lines 206-286 for one [text_ids]. *)
Definition cut_in_chunks (effective_block_size : option Z) : run :=
  match effective_block_size with
  | Some bs =>
      if negb (bs =? 0) && (bs <? Py.len text_ids)
      then chunk_loop bs (length text_ids) {| istart := 0; add_prefix := [] |}
      else ([whole_text effective_block_size], Ok ())
  | None => ([whole_text effective_block_size], Ok ())
  end.

End Chunker.

(** ** A small tokenizer for examples *)

(** Token 1 is the opening bracket, token 2 the closing ":]"; tokens
    from 20 on start a word (they decode with a leading space), the
    others continue one. *)
Definition example_decode (ids : list Z) : string :=
  match ids with
  | [1%Z] => "["%string
  | [2%Z] => ":]"%string
  | [t] => if (20 <=? t)%Z then " w"%string else "x"%string
  | _ => ""%string
  end.

Definition example_encode (s : string) : list Z :=
  if bool_decide (s = "[speaker001:]"%string) then [1; 5; 6; 2]%Z
  else if bool_decide (s = "[Intervenant 1:]"%string) then [1; 7; 8; 9; 2]%Z
  else if bool_decide (s = "[A:]"%string) then [1; 10; 2]%Z
  else [].

Definition example_tokenizer : Tokenizer :=
  {| encode := example_encode; decode := example_decode; eos_id := 0 |}.

(** 25 tokens, each starting a word, and no tag. *)
Definition plain_ids : list Z := Z.of_nat <$> seq 20 25.

(** One turn tag, then words. *)
Definition one_turn_ids : list Z := [1; 2; 20; 21; 22; 23; 24; 25]%Z.

(** A turn tag, words, and a second tag at indices 15 and 16. *)
Definition two_turn_ids : list Z :=
  [1; 2; 20; 21; 22; 23; 24; 25; 26; 27; 28; 29; 30; 31; 32; 1; 2; 33]%Z.

(** A word start followed by two tokens that continue the word. *)
Definition long_word_ids : list Z := [20; 5; 6]%Z.

(** Renderings of a text that differ at levels 2 and 4 only. *)
Definition example_render (k : nat) (text : string) (rng : ()) : string * () :=
  (match k with
   | 0 | 1 => text
   | 2 | 3 => (text ++ ".")%string
   | _ => (text ++ "..")%string
   end, rng).

(** ** The leveled text-augmentation generator *)

Section TextAugmentationGenerator.

(** The state of the random source and the rendering of a
    conversation at one level, which may draw from it.  Level 0 is
    the canonical normalization. *)
Context {Rng : Type}.
Context (render : nat → string → Rng → string * Rng).

(** The levels range over 0..5. *)
Definition max_level : nat := 5.

(** Modelled from the spec: [augmented_texts_generator] lives in
    [utils/text.py], which is not among the sources.  Following the
    specification of [generate] with [force_augmentation] unset: the
    candidates are rendered level by level from level 0; a candidate
    equal to a string already emitted is skipped and generation
    proceeds to the next one; with an integer level [L] generation
    stops once [L+1] variants have been emitted ([cap = Some (L+1)]),
    with no level ([cap = None]) every level is visited. *)
Fixpoint generate_from (levels : list nat) (cap : option nat)
    (text : string) (emitted : list string) (rng : Rng) : list string :=
  match levels with
  | [] => emitted
  | k :: levels' =>
      if from_option (λ n, bool_decide (n ≤ length emitted)) false cap
      then emitted
      else
        let '(v, rng') := render k text rng in
        if bool_decide (v ∈ emitted)
        then generate_from levels' cap text emitted rng'
        else generate_from levels' cap text (emitted ++ [v]) rng'
  end.

(** Modelled from the spec: the contract of [generate] for
    [force_augmentation = False]; a negative level is an
    ArgumentError. *)
Definition generate (text : string) (level : option Z) (rng : Rng)
    : result (list string) :=
  match level with
  | None => Ok (generate_from (seq 0 (S max_level)) None text [] rng)
  | Some L =>
      if (L <? 0)%Z then Raise ArgumentError
      else Ok (generate_from (seq 0 (S max_level))
                 (Some (Z.to_nat L + 1)) text [] rng)
  end.

(** Modelled from the spec: the maximum distinct-variant count of a
    text, one less than the number of variants of the full staircase
    (as the unit test measures it). *)
Definition maximum_variants (text : string) (rng : Rng) : nat :=
  length (generate_from (seq 0 (S max_level)) None text [] rng) - 1.

(** The canonical level-0 normalization. *)
Definition normalized (text : string) (rng : Rng) : string :=
  (render 0 text rng).1.

End TextAugmentationGenerator.

(** ** Which files of a dataset folder are processed (lines 68-84) *)

Section FileSelection.

Context (filename_full filename_train filename_dev : string).

(** [l.remove(x)]: the list without the first occurrence of [x]
    (the code calls it only when [x in l]). *)
Fixpoint list_remove_first (x : string) (l : list string) : list string :=
  match l with
  | [] => []
  | y :: l' => if bool_decide (y = x) then l' else y :: list_remove_first x l'
  end.

(** Lines 73-79, for a [file] equal to [filename_full]. *)
Definition files_for_this_dataset (file : string) (files : list string)
    : list string :=
  let l := [file] in
  let l := if bool_decide (filename_train ∈ files) then [filename_train] else l in
  if bool_decide (filename_dev ∈ files) then
    let l := l ++ [filename_dev] in
    if bool_decide (file ∈ l) then list_remove_first file l else l
  else l.

(** Lines 80-84: one entry of [all_files] per selected file.  Within a
    folder the key [os.path.join(root, f)] is determined by the file
    name [f], which stands for it here; of the metadata only the
    [is_dev] flag is kept. *)
Definition record_files (selected : list string) (all_files : gmap string bool)
    : gmap string bool :=
  foldl (λ m f, <[f := bool_decide (f = filename_dev)]> m) all_files selected.

(** The loop [for file in files] over the files of one folder. *)
Definition collect_folder (files : list string) (all_files : gmap string bool)
    : gmap string bool :=
  foldl (λ m file,
           if bool_decide (file = filename_full)
           then record_files (files_for_this_dataset file files) m
           else m)
        all_files files.

End FileSelection.

(** [prefix = set_name.replace("/", "--")] *)
Fixpoint replace_slash (set_name : string) : string :=
  match set_name with
  | EmptyString => EmptyString
  | String c rest =>
      if bool_decide (c = "/"%char)
      then String "-" (String "-" (replace_slash rest))
      else String c (replace_slash rest)
  end.

(** ** The number and size of the output files (lines 143-153) *)

(** Outcomes of the integer arithmetic: a value, Python's
    ZeroDivisionError, or the model's loop running out of fuel. *)
Inductive sized (A : Type) : Type :=
  | Sized (a : A)
  | ZeroDivisionError
  | SizingOutOfFuel.
Arguments Sized {A} a.
Arguments ZeroDivisionError {A}.
Arguments SizingOutOfFuel {A}.

#[global] Instance sized_bind : MBind sized := λ A B k r,
  match r with
  | Sized a => k a
  | ZeroDivisionError => ZeroDivisionError
  | SizingOutOfFuel => SizingOutOfFuel
  end.

(** [math.ceil(a / b)] for integers [a] and [b].  The quotient is a
    float; for the counts at hand (below 2^53) its ceiling is the
    ceiling of the exact quotient, which is what is modelled. *)
Definition ceil_div (a b : Z) : sized Z :=
  if (b =? 0)%Z then ZeroDivisionError else Sized (- (- a / b))%Z.

(** The loop [while num_segments_per_file > 512]: the pair of [it] and
    [num_segments_per_file] on leaving it. *)
Fixpoint fit_segments_per_file (num_segments_augmented multiple_of : Z)
    (fuel : nat) (it num_segments_per_file : Z) : sized (Z * Z) :=
  if (512 <? num_segments_per_file)%Z then
    match fuel with
    | O => SizingOutOfFuel
    | S fuel' =>
        let it := (it + 1)%Z in
        num_segments_per_file ←
          ceil_div num_segments_augmented (multiple_of * it) ;
        fit_segments_per_file num_segments_augmented multiple_of fuel'
          it num_segments_per_file
    end
  else Sized (it, num_segments_per_file).

(** What the second pass writes to the metadata and gives the builder. *)
Record file_layout : Type := {
  num_samples_per_file : Z;
  chunk_size : Z;
  num_files : Z;
  num_padded : Z;
}.

(** Lines 143-153.  [last_it] is the value of [it] on leaving the loop. *)
Definition plan_files (num_segments_augmented multiple_of
    effective_block_size : Z) : sized (Z * file_layout) :=
  num_segments_per_file ← ceil_div num_segments_augmented multiple_of ;
  '(last_it, num_segments_per_file) ←
    fit_segments_per_file num_segments_augmented multiple_of
      (Z.to_nat num_segments_augmented) 1 num_segments_per_file ;
  num_files ← ceil_div num_segments_augmented num_segments_per_file ;
  Sized (last_it,
         {| num_samples_per_file := num_segments_per_file;
            chunk_size := effective_block_size * num_segments_per_file;
            num_files := num_files;
            num_padded := num_segments_per_file * num_files
                          - num_segments_augmented |})%Z.

(** ** The counters of one pass over a dataset (lines 182-288) *)

Record counters : Type := {
  num_cuts : Z;
  num_convs : Z;
  num_convs_augmented : Z;
  num_segments_augmented : Z;
  num_segments : Z;
  min_len : Z;
  max_len : Z;
}.

(** Lines 183-189 ([min_len = 1e10]). *)
Definition init_counters : counters :=
  {| num_cuts := 0; num_convs := 0; num_convs_augmented := 0;
     num_segments_augmented := 0; num_segments := 0;
     min_len := 10 ^ 10; max_len := 0 |}%Z.

Section Counters.
Local Open Scope Z_scope.

Context (tok : Tokenizer).
Context (tag_token_prefix tag_token_suffix : Z).
Context (padding cut_around_turns : bool).
Context (effective_block_size : option Z).

(** Lines 225-231 and 280-286: the counters after one array [a]. *)
Definition count_array (ivariant : nat) (st : counters) (a : list Z) : counters :=
  {| num_cuts := num_cuts st;
     num_convs := num_convs st;
     num_convs_augmented := num_convs_augmented st;
     num_segments_augmented := num_segments_augmented st + 1;
     num_segments :=
       if bool_decide (ivariant = 0%nat) then num_segments st + 1
       else num_segments st;
     min_len := Z.min (min_len st) (Py.len a);
     max_len := Z.max (max_len st) (Py.len a) |}.

(** Line 208: the text is cut in several chunks. *)
Definition cut_in_several (text_ids : list Z) : bool :=
  match effective_block_size with
  | Some bs => negb (bs =? 0) && (bs <? Py.len text_ids)
  | None => false
  end.

(** Lines 205-287 for one variant of a text.  An exception raised
    while cutting ends the pass. *)
Definition count_variant (st : counters) (ivariant : nat) (text_ids : list Z)
    : result counters :=
  let r := cut_in_chunks tok tag_token_prefix tag_token_suffix padding
             cut_around_turns text_ids effective_block_size in
  _ ← r.2 ;
  let st := foldl (count_array ivariant) st (seg_array <$> r.1) in
  Ok {| num_cuts := if cut_in_several text_ids then num_cuts st + 1
                    else num_cuts st;
        num_convs := num_convs st;
        num_convs_augmented := num_convs_augmented st + 1;
        num_segments_augmented := num_segments_augmented st;
        num_segments := num_segments st;
        min_len := min_len st;
        max_len := max_len st |}.

(** The loop over the variants of one text, each given by its token
    ids, numbered from [ivariant]. *)
Fixpoint count_variants (st : counters) (ivariant : nat)
    (variants : list (list Z)) : result counters :=
  match variants with
  | [] => Ok st
  | text_ids :: variants' =>
      st ← count_variant st ivariant text_ids ;
      count_variants st (S ivariant) variants'
  end.

(** The loop over the conversations of the dataset. *)
Fixpoint count_texts (st : counters) (texts : list (list (list Z)))
    : result counters :=
  match texts with
  | [] => Ok st
  | variants :: texts' =>
      st ← count_variants st 0 variants ;
      count_texts
        {| num_cuts := num_cuts st;
           num_convs := num_convs st + 1;
           num_convs_augmented := num_convs_augmented st;
           num_segments_augmented := num_segments_augmented st;
           num_segments := num_segments st;
           min_len := min_len st;
           max_len := max_len st |}
        texts'
  end.

(** The lengths counted so far: none yet ([min_len] and [max_len] as
    initialised), or all of them between 0 and the block size, and
    equal to it when padding is on. *)
Definition lengths_within (bs : Z) (st : counters) : Prop :=
  (num_segments_augmented st = 0 ∧ min_len st = 10 ^ 10 ∧ max_len st = 0) ∨
  (0 < num_segments_augmented st ∧
   0 ≤ min_len st ≤ max_len st ∧ max_len st ≤ bs ∧
   (padding = true → min_len st = bs ∧ max_len st = bs)).

End Counters.

(** ** Training on the prepared segments ([pretrain_lora.py]) *)

Definition eval_interval : Z := 1000.
Definition save_interval : Z := 1000.
Definition eval_iters : nat := 100.
Definition batch_size : Z := 128.
Definition micro_batch_size : Z := 4.
Definition gradient_accumulation_iters : Z := (batch_size / micro_batch_size)%Z.
Definition max_iters : Z := 50000.

(** [effective_block_size = config.block_size + 1] in [prepare]. *)
Definition prepared_block_size (block_size : Z) : Z := (block_size + 1)%Z.

(** [input_ids = train_data[:, 0 : max_seq_length]] and
    [targets = train_data[:, 1 : max_seq_length + 1]], on one row. *)
Definition input_ids (max_seq_length : Z) (row : list Z) : list Z :=
  Py.slice row 0 max_seq_length.
Definition targets (max_seq_length : Z) (row : list Z) : list Z :=
  Py.slice row 1 (max_seq_length + 1).

(** What the training loop does besides computing: the optimizer
    steps, the validations and the checkpoints, each recorded by the
    [iter_num] at which it happens. *)
Record train_state : Type := {
  step_count : Z;
  optimizer_steps : list Z;
  validations : list Z;
  checkpoints : list Z;
}.

Definition init_train_state : train_state :=
  {| step_count := 0; optimizer_steps := []; validations := [];
     checkpoints := [] |}.

(** One iteration of the loop of [train], past the [break]. *)
Definition train_iteration (has_val : bool) (iter_num : Z) (st : train_state)
    : train_state :=
  let is_accumulating :=
    negb ((iter_num + 1) `mod` gradient_accumulation_iters =? 0)%Z in
  let step_count' :=
    if is_accumulating then step_count st else (step_count st + 1)%Z in
  {| step_count := step_count';
     optimizer_steps :=
       if is_accumulating then optimizer_steps st
       else optimizer_steps st ++ [iter_num];
     validations :=
       if has_val && negb is_accumulating
          && (step_count' `mod` eval_interval =? 0)%Z
       then validations st ++ [iter_num] else validations st;
     checkpoints :=
       if negb is_accumulating && (step_count' `mod` save_interval =? 0)%Z
       then checkpoints st ++ [iter_num] else checkpoints st |}.

(** [for iter_num, train_data in enumerate(train_dataloader)] over a
    loader of [batches] batches, with the [break] at [max_iters]. *)
Fixpoint train_loop (has_val : bool) (batches : nat) (iter_num : Z)
    (st : train_state) : train_state :=
  match batches with
  | O => st
  | S batches' =>
      if (max_iters <=? iter_num)%Z then st
      else train_loop has_val batches' (iter_num + 1)
             (train_iteration has_val iter_num st)
  end.

(** The loop of [validate]: [losses[k] = ...] for the [k]-th batch,
    in a buffer of [eval_iters] entries. *)
Fixpoint validate_fill {A} (losses : list A) (k : nat) (batch_losses : list A)
    : result (list A) :=
  match batch_losses with
  | [] => Ok losses
  | x :: batch_losses' =>
      if bool_decide (k < length losses)%nat
      then validate_fill (<[k := x]> losses) (S k) batch_losses'
      else Raise IndexError
  end.

(** The buffer of which [validate] returns the mean; [zero] is the
    entry of [torch.zeros]. *)
Definition validate_losses {A} (zero : A) (batch_losses : list A)
    : result (list A) :=
  validate_fill (replicate eval_iters zero) 0 batch_losses.

(** * Properties *)

(** ** [common_prefix] and [common_suffix] *)

Lemma min_length_Ok (lists : list (list Z)) :
  lists ≠ [] → ∃ m, min_length lists = Ok m.
Proof. destruct lists; [done | eauto]. Qed.

Lemma min_length_le lists m l :
  min_length lists = Ok m → l ∈ lists → m ≤ length l.
Proof.
  destruct lists as [|l0 ls]; [done|]. simpl. intros [= <-].
  induction ls as [|x ls IH]; simpl.
  - intros ->%list_elem_of_singleton. done.
  - rewrite !elem_of_cons. intros [->|[->|Hin]].
    + etrans; [apply Nat.le_min_r|]. apply IH. left.
    + apply Nat.le_min_l.
    + etrans; [apply Nat.le_min_r|]. apply IH. by right.
Qed.

Lemma min_length_glb lists m n :
  min_length lists = Ok m → (∀ l, l ∈ lists → n ≤ length l) → n ≤ m.
Proof.
  destruct lists as [|l0 ls]; [done|]. simpl. intros [= <-] Hn.
  induction ls as [|x ls IH]; simpl.
  - apply Hn. left.
  - apply Nat.min_glb.
    + apply Hn. right. left.
    + apply IH. intros l Hl. apply Hn.
      apply elem_of_cons in Hl as [->|Hl]; [left | right; by right].
Qed.

Lemma all_agree_at_spec l0 ls i :
  all_agree_at (l0 :: ls) i = true ↔ ∀ l, l ∈ ls → l !! i = l0 !! i.
Proof.
  unfold all_agree_at. simpl. rewrite forallb_forall. split.
  - intros H l Hl. apply list_elem_of_In, H in Hl. by apply bool_decide_eq_true in Hl.
  - intros H l Hl. apply bool_decide_eq_true, H. by apply list_elem_of_In.
Qed.

(** The scan leaves the loop for good: its result is the first index at
    which the loop condition fails, and the fuel [min_length - i] is
    never exhausted. *)
Lemma common_prefix_scan_spec lists m fuel i :
  i ≤ m → m - i ≤ fuel →
  ∃ j, common_prefix_scan lists m fuel i = Ok j ∧ i ≤ j ≤ m ∧
       (∀ k, i ≤ k < j → all_agree_at lists k = true) ∧
       (j < m → all_agree_at lists j = false).
Proof.
  revert i. induction fuel as [|fuel IH]; intros i Hi Hfuel; simpl.
  - assert (i = m) as -> by lia.
    rewrite bool_decide_eq_false_2 by lia. simpl.
    exists m. split_and!; [done|lia|lia|lia|lia].
  - destruct (bool_decide (i < m)) eqn:Hlt; simpl.
    + apply bool_decide_eq_true in Hlt.
      destruct (all_agree_at lists i) eqn:Hag.
      * destruct (IH (S i)) as (j & -> & Hj & Hall & Hstop); [lia|lia|].
        exists j. split_and!; [done|lia|lia| |done].
        intros k Hk. destruct (decide (k = i)) as [->|]; [done|].
        apply Hall. lia.
      * exists i. split_and!; [done|lia|lia|lia|done].
    + apply bool_decide_eq_false in Hlt.
      exists i. split_and!; [done|lia|lia|lia|lia].
Qed.

Lemma take_agree (l l0 : list Z) j :
  j ≤ length l → (∀ k, k < j → l !! k = l0 !! k) → take j l0 `prefix_of` l.
Proof.
  intros Hj Hk. replace (take j l0) with (take j l); [apply prefix_take|].
  apply list_eq. intros k. destruct (decide (k < j)).
  - rewrite !lookup_take_lt by done. by apply Hk.
  - rewrite !lookup_take_ge by lia. done.
Qed.

Lemma common_prefix_spec (lists : list (list Z)) :
  lists ≠ [] →
  ∃ p, common_prefix lists = Ok p ∧
       (∀ l, l ∈ lists → p `prefix_of` l) ∧
       (∀ q, (∀ l, l ∈ lists → q `prefix_of` l) → q `prefix_of` p).
Proof.
  intros Hne. destruct (min_length_Ok lists Hne) as [m Hm].
  destruct (common_prefix_scan_spec lists m m 0) as (j & Hscan & Hj & Hall & Hstop);
    [lia|lia|].
  unfold common_prefix. rewrite Hm. simpl. rewrite Hscan. simpl.
  destruct lists as [|l0 ls]; [done|]. simpl.
  eexists; split; [done|]. split.
  - intros l [->|Hl]%elem_of_cons; [apply prefix_take|].
    apply take_agree.
    + assert (m ≤ length l) by (apply (min_length_le _ _ l Hm); by right). lia.
    + intros k Hk. eapply all_agree_at_spec; [|done]. apply Hall. lia.
  - intros q Hq.
    assert (length q ≤ m) as Hqm.
    { apply (min_length_glb _ _ _ Hm). intros l Hl. by apply prefix_length, Hq. }
    assert (length q ≤ j) as Hqj.
    { destruct (decide (length q ≤ j)) as [|Hgt]; [done|]. exfalso.
      assert (all_agree_at (l0 :: ls) j = true) as Hag;
        [|rewrite Hstop in Hag by lia; done].
      apply all_agree_at_spec. intros l Hl.
      destruct (Hq l) as [k1 ->]; [by right|].
      destruct (Hq l0) as [k2 ->]; [left|].
      rewrite !lookup_app_l by lia. done. }
    destruct (Hq l0) as [k ->]; [left|].
    rewrite take_app_ge by done. by apply prefix_app_r.
Qed.

Lemma common_suffix_spec (lists : list (list Z)) :
  lists ≠ [] →
  ∃ s, common_suffix lists = Ok s ∧
       (∀ l, l ∈ lists → s `suffix_of` l) ∧
       (∀ q, (∀ l, l ∈ lists → q `suffix_of` l) → q `suffix_of` s) ∧
       (∃ p', common_prefix (reverse <$> lists) = Ok p' ∧ s = reverse p').
Proof.
  intros Hne.
  assert (reverse <$> lists ≠ []) as Hne' by (by destruct lists).
  destruct (common_prefix_spec _ Hne') as (p' & Hp' & Hpre' & Hmax').
  exists (reverse p'). unfold common_suffix. rewrite Hp'. simpl.
  split_and!; [done| | |by eauto].
  - intros l Hl. apply suffix_prefix_reverse. rewrite reverse_involutive.
    apply Hpre'. apply list_elem_of_fmap. by exists l.
  - intros q Hq. apply suffix_prefix_reverse. rewrite reverse_involutive.
    apply Hmax'. intros l' (l & -> & Hl)%list_elem_of_fmap.
    by apply suffix_prefix_reverse, Hq.
Qed.

(** C8. For a non-empty collection of token-id lists, [common_prefix]
    returns the longest list that is a prefix of every member: it is a
    common prefix, and every common prefix is a prefix of it (so no
    longer).  [common_suffix] returns the longest common suffix in the
    same sense, and is the reversal of [common_prefix] applied to the
    reversed lists. *)
Theorem common_prefix_suffix_longest (lists : list (list Z)) :
  lists ≠ [] →
  ∃ p s,
    common_prefix lists = Ok p ∧ common_suffix lists = Ok s ∧
    (∀ l, l ∈ lists → p `prefix_of` l) ∧
    (∀ q, (∀ l, l ∈ lists → q `prefix_of` l) →
          q `prefix_of` p ∧ length q ≤ length p) ∧
    (∀ l, l ∈ lists → s `suffix_of` l) ∧
    (∀ q, (∀ l, l ∈ lists → q `suffix_of` l) →
          q `suffix_of` s ∧ length q ≤ length s) ∧
    (∃ p', common_prefix (reverse <$> lists) = Ok p' ∧ s = reverse p').
Proof.
  intros Hne.
  destruct (common_prefix_spec lists Hne) as (p & Hp & Hpre & Hmax).
  destruct (common_suffix_spec lists Hne) as (s & Hs & Hsuf & Hmaxs & Hrev).
  exists p, s. split_and!; [done|done|done| |done| |done].
  - intros q Hq. split; [by apply Hmax | by apply prefix_length, Hmax].
  - intros q Hq. split; [by apply Hmaxs | by apply suffix_length, Hmaxs].
Qed.

Lemma common_prefix_suffix_longest_witness :
  ∃ p s,
    common_prefix [[1; 2; 3; 9]; [1; 2; 4; 9]; [1; 2; 9]]%Z = Ok p ∧
    common_suffix [[1; 2; 3; 9]; [1; 2; 4; 9]; [1; 2; 9]]%Z = Ok s ∧
    (∀ l, l ∈ [[1; 2; 3; 9]; [1; 2; 4; 9]; [1; 2; 9]]%Z → p `prefix_of` l) ∧
    (∀ q, (∀ l, l ∈ [[1; 2; 3; 9]; [1; 2; 4; 9]; [1; 2; 9]]%Z → q `prefix_of` l) →
          q `prefix_of` p ∧ length q ≤ length p) ∧
    (∀ l, l ∈ [[1; 2; 3; 9]; [1; 2; 4; 9]; [1; 2; 9]]%Z → s `suffix_of` l) ∧
    (∀ q, (∀ l, l ∈ [[1; 2; 3; 9]; [1; 2; 4; 9]; [1; 2; 9]]%Z → q `suffix_of` l) →
          q `suffix_of` s ∧ length q ≤ length s) ∧
    (∃ p', common_prefix (reverse <$> [[1; 2; 3; 9]; [1; 2; 4; 9]; [1; 2; 9]]%Z)
             = Ok p' ∧ s = reverse p').
Proof. apply common_prefix_suffix_longest. done. Defined.

Example common_prefix_ex :
  common_prefix [[1; 2; 3; 9]; [1; 2; 4; 9]; [1; 2; 9]]%Z = Ok [1; 2]%Z.
Proof. reflexivity. Qed.

Example common_suffix_ex :
  common_suffix [[1; 2; 3; 9]; [1; 2; 4; 9]; [1; 2; 9]]%Z = Ok [9]%Z.
Proof. reflexivity. Qed.

(** ** Tokens around the turn tags *)

Lemma tag_tokens_nonempty tok : tag_tokens tok ≠ [].
Proof. done. Qed.

Lemma len_cons_pos (x : Z) l : (0 <? Py.len (x :: l))%Z = true.
Proof. apply Z.ltb_lt. unfold Py.len. simpl. lia. Qed.

Lemma len_cons_cons_gt (x y : Z) l : (1 <? Py.len (x :: y :: l))%Z = true.
Proof. apply Z.ltb_lt. unfold Py.len. simpl. lia. Qed.

(** C7. The resolution of the tag tokens fails exactly when its
    precondition is violated.  With [P] and [S] the common prefix and
    suffix of the three tag tokenizations: an assertion fails iff [P] or
    [S] is empty or [P] does not decode to "[" or [S] not to ":]";
    NotImplementedError is raised iff these checks pass and [P] or [S]
    has more than one token; and the result is a pair [(p, s)] iff [P]
    and [S] are the single tokens [p] and [s], decoding to "[" and ":]".
    There is no other outcome. *)
Theorem resolve_tag_tokens_outcome (tok : Tokenizer) :
  ∃ P S,
    common_prefix (tag_tokens tok) = Ok P ∧
    common_suffix (tag_tokens tok) = Ok S ∧
    ((∃ site, resolve_tag_tokens tok = Raise (AssertionError site)) ↔
       P = [] ∨ S = [] ∨
       decode tok P ≠ "["%string ∨ decode tok S ≠ ":]"%string) ∧
    (resolve_tag_tokens tok = Raise NotImplementedError ↔
       P ≠ [] ∧ S ≠ [] ∧
       decode tok P = "["%string ∧ decode tok S = ":]"%string ∧
       (1 < length P ∨ 1 < length S)) ∧
    (∀ p s, resolve_tag_tokens tok = Ok (p, s) ↔
       P = [p] ∧ S = [s] ∧
       decode tok [p] = "["%string ∧ decode tok [s] = ":]"%string) ∧
    ((∃ site, resolve_tag_tokens tok = Raise (AssertionError site)) ∨
     resolve_tag_tokens tok = Raise NotImplementedError ∨
     (∃ p s, resolve_tag_tokens tok = Ok (p, s))).
Proof.
  destruct (common_prefix_spec _ (tag_tokens_nonempty tok)) as (P & HP & _).
  destruct (common_suffix_spec _ (tag_tokens_nonempty tok)) as (S & HS & _).
  exists P, S. split; [done|]. split; [done|].
  unfold resolve_tag_tokens. rewrite HP, HS. simpl.
  destruct P as [|p P]; [simpl; naive_solver eauto|].
  destruct S as [|s S]; [simpl; naive_solver eauto|].
  rewrite !len_cons_pos. simpl. unfold assert.
  destruct (decide (decode tok (p :: P) = "["%string)) as [Hp|Hp];
    [rewrite (bool_decide_eq_true_2 _ Hp)|rewrite (bool_decide_eq_false_2 _ Hp)];
    simpl; [|naive_solver eauto].
  destruct (decide (decode tok (s :: S) = ":]"%string)) as [Hs|Hs];
    [rewrite (bool_decide_eq_true_2 _ Hs)|rewrite (bool_decide_eq_false_2 _ Hs)];
    simpl; [|naive_solver eauto].
  destruct P as [|p' P]; [destruct S as [|s' S]|].
  - simpl. naive_solver (eauto; simpl; lia).
  - rewrite len_cons_cons_gt, orb_true_r. naive_solver (eauto; simpl; lia).
  - rewrite len_cons_cons_gt. simpl. naive_solver (eauto; simpl; lia).
Qed.

Example resolve_tag_tokens_ex : resolve_tag_tokens example_tokenizer = Ok (1, 2)%Z.
Proof. reflexivity. Qed.

(** ** Python slices and indexing *)

Section PyFacts.
Local Open Scope Z_scope.
Context {A : Type}.
Implicit Types (l : list A) (a b i : Z).

Lemma len_nonneg l : 0 ≤ Py.len l.
Proof. unfold Py.len. lia. Qed.

Lemma len_app l k : Py.len (l ++ k) = Py.len l + Py.len k.
Proof. unfold Py.len. rewrite length_app. lia. Qed.

(** Inside the list, a slice is [take] after [drop]. *)
Lemma slice_take_drop l a b :
  0 ≤ a → a ≤ b →
  Py.slice l a b = take (Z.to_nat (b - a)) (drop (Z.to_nat a) l).
Proof.
  intros Ha Hab. unfold Py.slice, Py.clip, Py.len.
  rewrite !(proj2 (Z.ltb_ge _ 0)) by lia.
  destruct (decide (Z.of_nat (length l) ≤ a)) as [Hout|Hin].
  - rewrite !drop_ge by lia. by rewrite !take_nil.
  - rewrite (Z.min_l a) by lia.
    destruct (decide (b ≤ Z.of_nat (length l))).
    + by rewrite Z.min_l by lia.
    + rewrite Z.min_r by lia.
      rewrite !take_ge; [done|rewrite length_drop; lia..].
Qed.

Lemma slice_len_le l a b : a ≤ b → Py.len (Py.slice l a b) ≤ b - a.
Proof.
  intros Hab. unfold Py.slice, Py.clip, Py.len.
  rewrite length_take, length_drop.
  destruct (Z.ltb_spec a 0), (Z.ltb_spec b 0); lia.
Qed.

Lemma slice_len l a b :
  0 ≤ a → a ≤ b →
  Py.len (Py.slice l a b) = Z.max 0 (Z.min b (Py.len l) - a).
Proof.
  intros Ha Hab. rewrite slice_take_drop by done. unfold Py.len.
  rewrite length_take, length_drop. lia.
Qed.

Lemma slice_lookup l a b (k : nat) :
  0 ≤ a → a ≤ b →
  Py.slice l a b !! k =
    if bool_decide (a + Z.of_nat k < b) then l !! (Z.to_nat a + k)%nat else None.
Proof.
  intros Ha Hab. rewrite slice_take_drop by done.
  case_bool_decide.
  - rewrite lookup_take_lt by lia. by rewrite lookup_drop.
  - by rewrite lookup_take_ge by lia.
Qed.

Lemma slice_all l a b :
  0 ≤ a → Py.len l ≤ b → Py.slice l a b = drop (Z.to_nat a) l.
Proof.
  intros Ha Hb. destruct (decide (a ≤ b)).
  - rewrite slice_take_drop by done. apply take_ge.
    rewrite length_drop. unfold Py.len in Hb. lia.
  - rewrite drop_ge by (unfold Py.len in Hb; lia).
    unfold Py.slice, Py.clip. rewrite (proj2 (Z.ltb_ge a 0)) by lia.
    rewrite drop_ge by (unfold Py.len in *; lia). by rewrite take_nil.
Qed.

Lemma get_in_range l i :
  0 ≤ i < Py.len l → ∃ x, Py.get l i = Ok x ∧ l !! Z.to_nat i = Some x.
Proof.
  intros Hi. unfold Py.get.
  destruct (Z.ltb_spec i 0) as [|_]; [lia|]. cbv zeta.
  destruct (Z.ltb_spec i 0) as [|_]; [lia|].
  destruct (lookup_lt_is_Some_2 l (Z.to_nat i)) as [x Hx];
    [unfold Py.len in Hi; lia|].
  rewrite Hx. eauto.
Qed.

Lemma get_result l i : Py.get l i ≠ OutOfFuel.
Proof. unfold Py.get. repeat case_match; done. Qed.

Lemma get_Raise l i e : Py.get l i = Raise e → e = IndexError.
Proof. unfold Py.get. repeat case_match; congruence. Qed.

End PyFacts.

Section WhereFacts.
Local Open Scope Z_scope.

Lemma where_from_spec tok l i j :
  j ∈ Py.where_from tok l i ↔
  i ≤ j ∧ l !! Z.to_nat (j - i) = Some tok.
Proof.
  revert i. induction l as [|x l IH]; intros i; simpl.
  - rewrite elem_of_nil. naive_solver.
  - destruct (Z.eqb_spec x tok) as [->|Hne].
    + rewrite elem_of_cons, IH. split.
      * intros [->|[Hle Hl]].
        -- rewrite Z.sub_diag. split; [lia|done].
        -- split; [lia|]. replace (Z.to_nat (j - i)) with (S (Z.to_nat (j - (i + 1)))) by lia.
           done.
      * intros [Hle Hl]. destruct (decide (j = i)) as [|Hji]; [by left|right].
        split; [lia|]. replace (Z.to_nat (j - i)) with (S (Z.to_nat (j - (i + 1)))) in Hl by lia.
        done.
    + rewrite IH. split.
      * intros [Hle Hl]. split; [lia|].
        replace (Z.to_nat (j - i)) with (S (Z.to_nat (j - (i + 1)))) by lia. done.
      * intros [Hle Hl]. destruct (decide (j = i)) as [->|Hji].
        { rewrite Z.sub_diag in Hl. simpl in Hl. congruence. }
        split; [lia|]. replace (Z.to_nat (j - i)) with (S (Z.to_nat (j - (i + 1)))) in Hl by lia.
        done.
Qed.

Lemma where_eq_spec l tok j :
  j ∈ Py.where_eq l tok ↔ 0 ≤ j ∧ l !! Z.to_nat j = Some tok.
Proof. unfold Py.where_eq. rewrite where_from_spec. by rewrite Z.sub_0_r. Qed.

(** [candidates[-1]] exists iff the token occurs, and is an index of
    an occurrence. *)
Lemma last_where_eq_Some l tok j :
  last (Py.where_eq l tok) = Some j →
  0 ≤ j < Py.len l ∧ l !! Z.to_nat j = Some tok.
Proof.
  intros (l' & Hl)%last_Some.
  assert (j ∈ Py.where_eq l tok) as [Hj Hl']%where_eq_spec.
  { rewrite Hl. apply elem_of_app. right. left. }
  split; [|done]. apply lookup_lt_Some in Hl'. unfold Py.len. lia.
Qed.

Lemma last_where_eq_None l tok :
  last (Py.where_eq l tok) = None ↔ tok ∉ l.
Proof.
  rewrite last_None. split.
  - intros Hnil (k & Hk)%list_elem_of_lookup.
    assert (Z.of_nat k ∈ Py.where_eq l tok) as Hin.
    { apply where_eq_spec. rewrite Nat2Z.id. split; [lia|done]. }
    rewrite Hnil in Hin. by apply elem_of_nil in Hin.
  - intros Hnot. destruct (Py.where_eq l tok) as [|j w] eqn:Hw; [done|].
    exfalso. apply Hnot.
    assert (j ∈ Py.where_eq l tok) as [_ Hj]%where_eq_spec by (rewrite Hw; left).
    by eapply list_elem_of_lookup_2.
Qed.

End WhereFacts.

(** ** The chunker *)

Section ChunkerFacts.
Local Open Scope Z_scope.

Context (tok : Tokenizer).
Context (tag_token_prefix tag_token_suffix : Z).
Context (padding : bool).
Context (text_ids : list Z).

Abbreviation chunk_loop' cut :=
  (chunk_loop tok tag_token_prefix tag_token_suffix padding cut text_ids).
Abbreviation cut_in_chunks' cut :=
  (cut_in_chunks tok tag_token_prefix tag_token_suffix padding cut text_ids).
Abbreviation next_cursor' :=
  (next_cursor tok tag_token_prefix tag_token_suffix text_ids).
Abbreviation segment_at' := (segment_at tok padding text_ids).
Abbreviation padded' := (padded tok padding).
Abbreviation len_ids := (Py.len text_ids).

Lemma len_pad_right (a : list Z) n v :
  Py.len a ≤ n → Py.len (Py.pad_right a n v) = n.
Proof.
  intros Ha. unfold Py.pad_right. rewrite len_app. unfold Py.len in *.
  rewrite length_replicate. lia.
Qed.

(** An array of at most [bs] tokens stays so after the optional
    padding, and has exactly [bs] tokens when padding is on. *)
Lemma len_padded bs (a : list Z) :
  Py.len a ≤ bs →
  Py.len (padded' bs a) ≤ bs ∧ (padding = true → Py.len (padded' bs a) = bs).
Proof.
  intros Ha. unfold padded.
  destruct padding; simpl; [|split; [done|done]].
  destruct (Z.ltb_spec (Py.len a) bs).
  - rewrite len_pad_right by lia. lia.
  - lia.
Qed.

Lemma len_selec bs c :
  istart c < iend bs c → Py.len (selec text_ids bs c) ≤ bs.
Proof.
  intros Hw. unfold selec. rewrite len_app.
  pose proof (slice_len_le text_ids (istart c) (iend bs c)).
  unfold iend in *. lia.
Qed.

(** Every segment the loop emits is the segment of a cursor inside
    the text whose window passed the assertion of line 213. *)
Lemma chunk_loop_emitted cut bs fuel c s :
  s ∈ (chunk_loop' cut bs fuel c).1 →
  ∃ c', s = segment_at' bs c' ∧ istart c' < len_ids ∧ istart c' < iend bs c'.
Proof.
  revert c. induction fuel as [|fuel IH]; intros c; simpl.
  - destruct (istart c <? len_ids); simpl; by intros ?%elem_of_nil.
  - destruct (Z.ltb_spec (istart c) len_ids) as [Hin|]; simpl;
      [|by intros ?%elem_of_nil].
    destruct (Z.ltb_spec (istart c) (iend bs c)) as [Hw|]; simpl;
      [|by intros ?%elem_of_nil].
    destruct (negb cut && (Py.len (selec text_ids bs c) <=? 10)); simpl;
      [by intros ?%elem_of_nil|].
    destruct (negb cut); simpl.
    + intros [->|Hs]%elem_of_cons; [by eauto|by eapply IH].
    + destruct (next_cursor' bs c) as [c'| |]; simpl.
      * intros [->|Hs]%elem_of_cons; [by eauto|by eapply IH].
      * intros ->%list_elem_of_singleton. by eauto.
      * intros ->%list_elem_of_singleton. by eauto.
Qed.

(** C10. With a block size set, every array the chunker emits, on
    the single-segment path and in the chunking loop (carried prefix
    included), has at most [effective_block_size] tokens, and exactly
    that many when padding is enabled. *)
Theorem emitted_length_bound cut bs s :
  bs ≠ 0 →
  s ∈ (cut_in_chunks tok tag_token_prefix tag_token_suffix
      padding cut text_ids (Some bs)).1 →
  Py.len (seg_array s) ≤ bs ∧
  (padding = true → Py.len (seg_array s) = bs).
Proof.
  intros Hbs. unfold cut_in_chunks.
  destruct (Z.eqb_spec bs 0) as [|_]; [done|]. simpl.
  destruct (Z.ltb_spec bs len_ids) as [Hlong|Hshort].
  - intros (c' & -> & Hin & Hw)%chunk_loop_emitted. simpl.
    apply len_padded. by apply len_selec.
  - simpl. intros ->%list_elem_of_singleton. simpl.
    destruct (Z.eqb_spec bs 0) as [|_]; [done|]. simpl.
    destruct padding; simpl; [|split; [done|done]].
    destruct (Z.ltb_spec len_ids bs).
    + rewrite len_pad_right by lia. lia.
    + lia.
Qed.

(** C5. A text of at most [effective_block_size] tokens gives exactly
    one segment holding all its token ids in order and the run ends
    normally; with padding on and a text strictly shorter than the
    block size the array is the text followed by eos ids up to the
    block size; otherwise (text of exactly the block size, or padding
    off) the array is the text itself. *)
Theorem short_text_single_segment cut bs :
  Py.len text_ids ≤ bs →
  ∃ s,
    cut_in_chunks tok tag_token_prefix tag_token_suffix
        padding cut text_ids (Some bs) = ([s], Ok ()) ∧
    seg_body s = text_ids ∧ seg_prefix s = [] ∧
    (padding = true → Py.len text_ids < bs →
       seg_array s = text_ids ++ replicate (Z.to_nat (bs - Py.len text_ids)) (eos_id tok) ∧
       Py.len (seg_array s) = bs) ∧
    (Py.len text_ids = bs → seg_array s = text_ids) ∧
    (padding = false → seg_array s = text_ids).
Proof.
  intros Hshort. unfold cut_in_chunks.
  destruct (Z.ltb_spec bs len_ids) as [|_]; [lia|].
  rewrite andb_false_r. eexists. split; [done|]. simpl.
  split; [done|]. split; [done|].
  destruct (Z.eqb_spec bs 0) as [->|Hbs]; simpl.
  - pose proof (len_nonneg text_ids). split_and!; [lia|done|done].
  - destruct padding; simpl.
    + destruct (Z.ltb_spec len_ids bs).
      * split_and!; [|lia|done].
        intros _ _. split; [done|]. apply len_pad_right. lia.
      * split_and!; [lia|done|done].
    + split_and!; [done|done|done].
Qed.

(** *** The walk back to a word boundary *)

Abbreviation walk := (word_boundary_walk tok text_ids).
Abbreviation naive_advance' := (naive_advance tok text_ids).

Abbreviation word_start' := (word_start tok text_ids).

(** The walk never goes above its starting point. *)
Lemma walk_le fuel i j : walk fuel i = Ok j → j ≤ i.
Proof.
  revert i. induction fuel as [|fuel IH]; intros i; simpl.
  - destruct (Py.get text_ids i) as [t| |]; simpl; [|done..].
    destruct (Py.startswith_space _); [|done]. intros [= ->]. lia.
  - destruct (Py.get text_ids i) as [t| |]; simpl; [|done..].
    destruct (Py.startswith_space _); [intros [= ->]; lia|].
    intros ?%IH. lia.
Qed.

(** It stops at the first word start it meets. *)
Lemma walk_stops fuel i j0 :
  0 ≤ j0 → j0 ≤ i → i < len_ids → i - j0 ≤ Z.of_nat fuel →
  word_start' j0 →
  ∃ j, walk fuel i = Ok j ∧ j0 ≤ j ≤ i.
Proof.
  intros Hj0. revert i. induction fuel as [|fuel IH]; intros i Hle Hi Hfuel Hws.
  - assert (i = j0) as -> by lia. simpl.
    destruct Hws as (t & Ht & Hsp).
    destruct (get_in_range text_ids j0) as (t' & -> & Ht'); [lia|].
    simpl. assert (t' = t) as -> by congruence. rewrite Hsp. exists j0. split; [done|lia].
  - simpl. destruct (get_in_range text_ids i) as (t & -> & Ht); [lia|]. simpl.
    destruct (Py.startswith_space (decode tok [t])) eqn:Hsp.
    + exists i. split; [done|lia].
    + assert (i ≠ j0) as Hne.
      { intros ->. destruct Hws as (t' & Ht' & Hsp'). congruence. }
      destruct (IH (i - 1)) as (j & Hj & Hrange); [lia|lia|lia|done|].
      exists j. split; [done|lia].
Qed.

(** It passes over every token that is not a word start. *)
Lemma walk_skips fuel i j :
  0 ≤ j → i < len_ids → walk fuel i = Ok j →
  word_start' j ∧ ∀ k, j < k ≤ i → ¬ word_start' k.
Proof.
  intros Hj. revert i. induction fuel as [|fuel IH]; intros i Hi; simpl.
  - destruct (Py.get text_ids i) as [t| |] eqn:Hget; simpl; [|done..].
    destruct (Py.startswith_space _) eqn:Hsp; [|done]. intros [= ->].
    destruct (get_in_range text_ids j) as (t' & Hget' & Ht'); [lia|].
    split; [|lia]. exists t'. split; [done|]. congruence.
  - destruct (Py.get text_ids i) as [t| |] eqn:Hget; simpl; [|done..].
    destruct (Py.startswith_space _) eqn:Hsp.
    + intros [= ->].
      destruct (get_in_range text_ids j) as (t' & Hget' & Ht'); [lia|].
      split; [|lia]. exists t'. split; [done|]. congruence.
    + intros Hw. pose proof (walk_le _ _ _ Hw) as Hle.
      destruct (IH (i - 1)) as [Hws Hskip]; [lia|done|].
      split; [done|]. intros k Hk. destruct (decide (k = i)) as [->|].
      * intros (t' & Ht' & Hsp').
        destruct (get_in_range text_ids i) as (t'' & Hget' & Ht''); [lia|].
        congruence.
      * apply Hskip. lia.
Qed.

(** The fuel the model gives the walk is enough: from [i] the walk
    can visit the indices [i, i-1, ..., -len] only. *)
Lemma walk_total fuel i :
  i + len_ids + 1 ≤ Z.of_nat fuel → walk fuel i ≠ OutOfFuel.
Proof.
  revert i. induction fuel as [|fuel IH]; intros i Hfuel; simpl.
  - destruct (Py.get text_ids i) as [t| |] eqn:Hget; simpl;
      [|done|by apply get_result in Hget].
    exfalso. unfold Py.get in Hget.
    destruct (Z.ltb_spec i 0); [|pose proof (len_nonneg text_ids); lia].
    destruct (Z.ltb_spec (i + len_ids) 0); [done|lia].
  - destruct (Py.get text_ids i) as [t| |] eqn:Hget; simpl;
      [|done|by apply get_result in Hget].
    destruct (Py.startswith_space _); [done|]. apply IH. lia.
Qed.

(** The walk fails only by running off the front of the text. *)
Lemma walk_Raise fuel i e : walk fuel i = Raise e → e = IndexError.
Proof.
  revert i. induction fuel as [|fuel IH]; intros i; simpl;
    destruct (Py.get text_ids i) as [t| |] eqn:Hget; simpl;
    try done; try (intros [= <-]; by apply get_Raise in Hget);
    destruct (Py.startswith_space _); try done. apply IH.
Qed.

Lemma naive_advance_Raise bs i e :
  naive_advance' bs i = Raise e → e = IndexError.
Proof. unfold naive_advance. destruct (_ <? _); [apply walk_Raise|done]. Qed.

Lemma naive_advance_total bs i : naive_advance' bs i ≠ OutOfFuel.
Proof.
  unfold naive_advance. destruct (_ <? _); [|done].
  apply walk_total. pose proof (len_nonneg text_ids). lia.
Qed.

Lemma naive_advance_le bs i j : naive_advance' bs i = Ok j → j ≤ i + bs.
Proof.
  unfold naive_advance. destruct (_ <? _).
  - apply walk_le.
  - intros [= ->]. lia.
Qed.

(** When the advance ends at or past the end of the text, the naive
    window end [i + bs] was already there. *)
Lemma naive_advance_end bs i j :
  naive_advance' bs i = Ok j → len_ids ≤ j → len_ids ≤ i + bs.
Proof.
  unfold naive_advance. destruct (Z.ltb_spec (i + bs) len_ids); [|lia].
  intros ?%walk_le. lia.
Qed.

(** With a word start in [(i, i + bs]], or no text left past
    [i + bs], the advance lands strictly above [i]. *)
Lemma naive_advance_gt bs i :
  0 ≤ i → 0 < bs →
  (len_ids ≤ i + bs ∨ ∃ j0, i < j0 ≤ i + bs ∧ word_start' j0) →
  ∃ j, naive_advance' bs i = Ok j ∧ i < j.
Proof.
  intros Hi Hbs Hcond. unfold naive_advance.
  destruct (Z.ltb_spec (i + bs) len_ids) as [Hin|Hout].
  - destruct Hcond as [|(j0 & Hj0 & Hws)]; [lia|].
    destruct (walk_stops (Z.to_nat (i + bs + len_ids + 1)) (i + bs) j0)
      as (j & Hj & Hrange); [lia|lia|lia| |done|].
    { pose proof (len_nonneg text_ids). lia. }
    exists j. split; [done|lia].
  - exists (i + bs). split; [done|lia].
Qed.

(** *** One iteration: the next cursor *)

Abbreviation lookahead' := (lookahead text_ids).

Ltac next_cursor_cases :=
  unfold next_cursor, assert, mbind, result_bind;
  repeat case_match; simplify_eq/=.

(** How an iteration can end normally: either on a turn start found
    at a positive offset of the lookahead (Case 1.1), or by the naive
    advance (Cases 1.2 and 2). *)
Lemma next_cursor_Ok_inv bs c c' :
  next_cursor' bs c = Ok c' →
  (∃ start_of_turn,
      0 < start_of_turn < Py.len (lookahead' bs c) ∧
      istart c' = istart c + start_of_turn ∧ add_prefix c' = []) ∨
  (naive_advance' bs (istart c) = Ok (istart c') ∧ istart c < istart c').
Proof.
  next_cursor_cases; intros; simplify_eq/=.
  - left. eexists. split; [|done].
    match goal with H : last (Py.where_eq (Py.slice _ 0 ?e) _) = Some _ |- _ =>
      apply last_where_eq_Some in H as [[? Hlt] _];
      pose proof (slice_len_le (lookahead' bs c) 0 e) end.
    match goal with H : last (Py.where_eq (lookahead' _ _) _) = Some _ |- _ =>
      apply last_where_eq_Some in H as [[? Hlt'] _] end.
    lia.
  - right. split; [done|lia].
  - right. split; [done|lia].
Qed.

(** The closing assertion can only fail after a naive advance that
    walked back to the previous cursor or below. *)
Lemma next_cursor_CursorAdvanced_inv bs c :
  next_cursor' bs c = Raise (AssertionError CursorAdvanced) →
  ∃ j, naive_advance' bs (istart c) = Ok j ∧ j ≤ istart c.
Proof.
  next_cursor_cases; intros; simplify_eq/=;
    try (eexists; split; [done|lia]);
    repeat match goal with
      | H : Py.get _ _ = Raise _ |- _ => by apply get_Raise in H
      | H : naive_advance' _ _ = Raise _ |- _ => by apply naive_advance_Raise in H
      end.
  match goal with H : last (Py.where_eq (Py.slice _ 0 _) _) = Some _ |- _ =>
    apply last_where_eq_Some in H as [[? Hlt] _] end.
  lia.
Qed.

Lemma next_cursor_total bs c : next_cursor' bs c ≠ OutOfFuel.
Proof.
  next_cursor_cases; try done;
    repeat match goal with
      | H : Py.get _ _ = OutOfFuel |- _ => by apply get_result in H
      | H : naive_advance' _ _ = OutOfFuel |- _ => by apply naive_advance_total in H
      end.
Qed.

Lemma next_cursor_gt bs c c' : next_cursor' bs c = Ok c' → istart c < istart c'.
Proof. intros [(? & ? & ? & ?)|[_ ?]]%next_cursor_Ok_inv; lia. Qed.

(** *** The loop: termination and the order of the cursors *)

(** The window assertion makes the block size exceed the carried
    prefix, hence positive. *)
Lemma window_bs_pos bs c : istart c < iend bs c → Py.len (add_prefix c) < bs.
Proof. unfold iend. lia. Qed.

(** The fuel [len(text_ids)] is never exhausted: every iteration
    that goes on moves the cursor by at least one token. *)
Lemma chunk_loop_total cut bs fuel c :
  len_ids - istart c ≤ Z.of_nat fuel →
  (chunk_loop' cut bs fuel c).2 ≠ OutOfFuel.
Proof.
  revert c. induction fuel as [|fuel IH]; intros c Hfuel; simpl.
  - destruct (Z.ltb_spec (istart c) len_ids); [lia|done].
  - destruct (Z.ltb_spec (istart c) len_ids) as [Hin|]; [|done].
    destruct (Z.ltb_spec (istart c) (iend bs c)) as [Hw|]; simpl; [|done].
    destruct (negb cut && _); simpl; [done|].
    destruct (negb cut); simpl.
    + apply IH. simpl. apply window_bs_pos in Hw.
      pose proof (len_nonneg (add_prefix c)). lia.
    + destruct (next_cursor' bs c) as [c'| |] eqn:Hnext; simpl.
      * apply IH. apply next_cursor_gt in Hnext. lia.
      * done.
      * by apply next_cursor_total in Hnext.
Qed.

Lemma cut_in_chunks_total cut ebs : (cut_in_chunks' cut ebs).2 ≠ OutOfFuel.
Proof.
  unfold cut_in_chunks. destruct ebs as [bs|]; [|done].
  destruct (_ && _); [|done]. apply chunk_loop_total. simpl.
  unfold Py.len. lia.
Qed.

(** The first segment of a loop is the one of its starting cursor. *)
Lemma chunk_loop_head cut bs fuel c s :
  (chunk_loop' cut bs fuel c).1 !! 0%nat = Some s → s = segment_at' bs c.
Proof.
  destruct fuel as [|fuel]; simpl.
  - by destruct (_ <? _).
  - destruct (_ <? _); [|done]. destruct (negb (_ <? _)); [done|].
    destruct (negb cut && _); [done|].
    destruct (negb cut); simpl; [congruence|].
    destruct (next_cursor' bs c); simpl; congruence.
Qed.

(** Successive segments of a loop have strictly increasing cursors. *)
Lemma chunk_loop_increasing cut bs fuel c (k : nat) s s' :
  (chunk_loop' cut bs fuel c).1 !! k = Some s →
  (chunk_loop' cut bs fuel c).1 !! S k = Some s' →
  seg_istart s < seg_istart s'.
Proof.
  revert c k. induction fuel as [|fuel IH]; intros c k; simpl.
  - by destruct (_ <? _).
  - destruct (_ <? _); [|done].
    destruct (Z.ltb_spec (istart c) (iend bs c)) as [Hw|]; simpl; [|done].
    destruct (negb cut && _); [done|].
    assert (∀ c', istart c < istart c' →
      (segment_at' bs c :: (chunk_loop' cut bs fuel c').1) !! k = Some s →
      (chunk_loop' cut bs fuel c').1 !! k = Some s' →
      seg_istart s < seg_istart s') as Hstep.
    { intros c' Hlt. destruct k as [|k]; simpl.
      - intros [= <-] ->%chunk_loop_head. done.
      - apply IH. }
    destruct (negb cut); simpl.
    + apply Hstep. simpl. apply window_bs_pos in Hw.
      pose proof (len_nonneg (add_prefix c)). lia.
    + destruct (next_cursor' bs c) as [c'| |] eqn:Hnext; simpl.
      * apply Hstep. by apply next_cursor_gt in Hnext.
      * by destruct k.
      * by destruct k.
Qed.

(** Case 1.1 never fails: when the last opening tag before the last
    closing tag of the lookahead is at a positive offset, the token
    under the new cursor is that opening tag, both assertions pass
    and the next cursor is on it, with no carried prefix. *)
Lemma next_cursor_turn_start bs c end_of_turn start_of_turn :
  0 ≤ istart c → istart c < iend bs c →
  last (Py.where_eq (lookahead' bs c) tag_token_suffix) = Some end_of_turn →
  last (Py.where_eq (Py.slice (lookahead' bs c) 0 end_of_turn) tag_token_prefix)
    = Some start_of_turn →
  0 < start_of_turn →
  next_cursor' bs c
    = Ok {| istart := istart c + start_of_turn; add_prefix := [] |}.
Proof.
  intros Hc Hw He Hs Hpos. unfold next_cursor. rewrite He, Hs.
  rewrite (proj2 (Z.ltb_lt 0 start_of_turn) Hpos).
  apply last_where_eq_Some in He as [[He0 _] _].
  apply last_where_eq_Some in Hs as [_ Hs].
  rewrite slice_lookup in Hs by lia.
  case_bool_decide; [|done]. simpl in Hs.
  unfold lookahead in Hs. rewrite slice_lookup in Hs by lia.
  case_bool_decide; [|done].
  destruct (get_in_range text_ids (istart c + start_of_turn)) as (x & Hget & Hx).
  { apply lookup_lt_Some in Hs. unfold Py.len. lia. }
  replace (Z.to_nat (istart c + start_of_turn))
    with (Z.to_nat (istart c) + Z.to_nat start_of_turn)%nat in Hx by lia.
  assert (x = tag_token_prefix) as -> by congruence.
  simpl. rewrite Hget. simpl. rewrite Z.eqb_refl. simpl.
  by rewrite (proj2 (Z.ltb_lt (istart c) (istart c + start_of_turn)))
    by lia.
Qed.

(** The closing assertion fails exactly in a naive advance (Case 2,
    no closing tag in the lookahead, or Case 1.2, the last opening tag
    before it at offset 0) whose walk back ends at the previous cursor
    or below. *)
Lemma next_cursor_CursorAdvanced_iff bs c :
  next_cursor' bs c = Raise (AssertionError CursorAdvanced) ↔
  (last (Py.where_eq (lookahead' bs c) tag_token_suffix) = None ∨
   ∃ end_of_turn,
     last (Py.where_eq (lookahead' bs c) tag_token_suffix) = Some end_of_turn ∧
     last (Py.where_eq (Py.slice (lookahead' bs c) 0 end_of_turn)
             tag_token_prefix) = Some 0) ∧
  ∃ j, naive_advance' bs (istart c) = Ok j ∧ j ≤ istart c.
Proof.
  split.
  - intros Hnext.
    split; [|by apply next_cursor_CursorAdvanced_inv].
    destruct (last (Py.where_eq (lookahead' bs c) tag_token_suffix))
      as [e|] eqn:He; [right|by left].
    exists e. split; [done|].
    destruct (last (Py.where_eq (Py.slice (lookahead' bs c) 0 e)
                      tag_token_prefix)) as [s|] eqn:Hs.
    + pose proof (last_where_eq_Some _ _ _ Hs) as [[Hs0 _] _].
      destruct (decide (0 < s)) as [Hpos|]; [|f_equal; lia].
      exfalso. revert Hnext. unfold next_cursor. rewrite He, Hs.
      rewrite (proj2 (Z.ltb_lt 0 s) Hpos).
      unfold assert, mbind, result_bind.
      destruct (Py.get text_ids (istart c + s)) as [t|x|] eqn:Hget; simpl;
        [|by apply get_Raise in Hget as ->|done].
      destruct (t =? tag_token_prefix); simpl; [|done].
      by rewrite (proj2 (Z.ltb_lt (istart c) (istart c + s))) by lia.
    + revert Hnext. unfold next_cursor. by rewrite He, Hs.
  - intros [Hcase (j & Hadv & Hj)].
    assert ((istart c <? j) = false) as Hback by (apply Z.ltb_ge; lia).
    unfold next_cursor.
    destruct Hcase as [->|(e & -> & ->)]; simpl;
      rewrite Hadv; simpl; by rewrite Hback.
Qed.

(** C4 (amended). The cursor is strictly greater at the end of every
    iteration that completes, and the cursors of successive segments
    of a run strictly increase.  The closing assertion (line 273) is a
    guard, not a theorem of the code.  It can fail only when the
    naive advance lands inside the text and no token in
    [(istart, istart + bs]] starts a word; it fails exactly in a
    naive advance (Case A.2, the last opening tag before the last
    closing tag of the lookahead at offset 0, or Case B, no closing
    tag in the lookahead) whose walk back to a word start ends at the
    previous cursor or below; and it never fails in Case A.1, where
    the iteration ends normally on the opening tag found. *)
Theorem cursor_strictly_increases cut bs :
  0 < bs →
  (∀ c c', next_cursor tok tag_token_prefix tag_token_suffix
      text_ids bs c = Ok c' → istart c < istart c') ∧
  (∀ ebs (k : nat) s s',
      (cut_in_chunks tok tag_token_prefix tag_token_suffix
          padding cut text_ids ebs).1 !! k = Some s →
      (cut_in_chunks tok tag_token_prefix tag_token_suffix
          padding cut text_ids ebs).1 !! S k = Some s' →
      seg_istart s < seg_istart s') ∧
  (∀ c, 0 ≤ istart c →
      next_cursor tok tag_token_prefix tag_token_suffix
          text_ids bs c = Raise (AssertionError CursorAdvanced) →
      istart c + bs < Py.len text_ids ∧
      ∀ j, istart c < j ≤ istart c + bs → ¬ word_start tok text_ids j) ∧
  (∀ c,
      next_cursor tok tag_token_prefix tag_token_suffix
          text_ids bs c = Raise (AssertionError CursorAdvanced) ↔
      (last (Py.where_eq (lookahead text_ids bs c) tag_token_suffix) = None ∨
       ∃ end_of_turn,
         last (Py.where_eq (lookahead text_ids bs c) tag_token_suffix)
           = Some end_of_turn ∧
         last (Py.where_eq (Py.slice (lookahead text_ids bs c) 0 end_of_turn)
                 tag_token_prefix) = Some 0) ∧
      ∃ j, naive_advance tok text_ids bs (istart c) = Ok j ∧ j ≤ istart c) ∧
  (∀ c end_of_turn start_of_turn,
      last (Py.where_eq (lookahead text_ids bs c) tag_token_suffix)
        = Some end_of_turn →
      last (Py.where_eq (Py.slice (lookahead text_ids bs c) 0 end_of_turn)
              tag_token_prefix) = Some start_of_turn →
      0 < start_of_turn →
      next_cursor tok tag_token_prefix tag_token_suffix text_ids bs c
        ≠ Raise (AssertionError CursorAdvanced) ∧
      (0 ≤ istart c → istart c < iend bs c →
       next_cursor tok tag_token_prefix tag_token_suffix text_ids bs c
         = Ok {| istart := istart c + start_of_turn; add_prefix := [] |})).
Proof.
  intros Hbs. split_and!.
  - intros c c'. apply next_cursor_gt.
  - intros ebs k s s'. unfold cut_in_chunks.
    destruct ebs as [bs'|]; [|done].
    destruct (_ && _); [|done]. apply chunk_loop_increasing.
  - intros c Hc (j & Hadv & Hj)%next_cursor_CursorAdvanced_inv.
    destruct (decide (istart c + bs < len_ids)) as [Hin|Hout].
    + split; [done|]. intros j0 Hj0 Hws.
      destruct (naive_advance_gt bs (istart c)) as (j' & Hadv' & Hj');
        [done|done|by eauto|].
      rewrite Hadv in Hadv'. simplify_eq. lia.
    + destruct (naive_advance_gt bs (istart c)) as (j' & Hadv' & Hj');
        [done|done|left; lia|].
      rewrite Hadv in Hadv'. simplify_eq. lia.
  - intros c. apply next_cursor_CursorAdvanced_iff.
  - intros c e s He Hs Hpos. split.
    + intros [[Hnone|(e' & He' & Hs')] _]%next_cursor_CursorAdvanced_iff.
      * congruence.
      * rewrite He in He'. injection He' as <-.
        rewrite Hs in Hs'. injection Hs' as ->. lia.
    + intros Hc Hw. by eapply next_cursor_turn_start.
Qed.

(** *** Naive cutting ([cut_around_turns] off) *)

Lemma dropped_tail_bounds bs n : 0 < bs → 0 ≤ dropped_tail bs n ≤ 10.
Proof.
  intros Hbs. unfold dropped_tail. pose proof (Z.mod_pos_bound n bs Hbs).
  destruct (Z.leb_spec (n `mod` bs) 10); lia.
Qed.

Lemma mod_sub_block bs n : 0 < bs → (n - bs) `mod` bs = n `mod` bs.
Proof.
  intros Hbs. replace (n - bs) with (n + (-1) * bs) by lia.
  apply Z_mod_plus_full.
Qed.

(** From a cursor [k * bs] with no carried prefix, the naive loop ends
    normally; the bodies of its segments, put end to end, are the
    rest of the text without the dropped tail; no segment carries a
    prefix; and when a tail is dropped no segment is padded. *)
Lemma naive_loop bs fuel c :
  10 < bs → add_prefix c = [] → 0 ≤ istart c →
  len_ids - istart c ≤ Z.of_nat fuel →
  ∃ segs,
    chunk_loop' false bs fuel c = (segs, Ok ()) ∧
    concat (seg_body <$> segs) =
      take (Z.to_nat (len_ids - istart c - dropped_tail bs (len_ids - istart c)))
           (drop (Z.to_nat (istart c)) text_ids) ∧
    Forall (λ s, seg_prefix s = [] ∧
                 ((len_ids - istart c) `mod` bs ≤ 10 → seg_array s = seg_body s))
           segs.
Proof.
  intros Hbs. revert c.
  induction fuel as [|fuel IH]; intros c Hpre Hc Hfuel.
  - simpl. destruct (Z.ltb_spec (istart c) len_ids); [lia|].
    exists []. split; [done|]. split; [|done]. simpl.
    pose proof (dropped_tail_bounds bs (len_ids - istart c)).
    replace (Z.to_nat _) with 0%nat by lia. done.
  - simpl. destruct (Z.ltb_spec (istart c) len_ids) as [Hin|Hout].
    2:{ exists []. split; [done|]. split; [|done]. simpl.
        pose proof (dropped_tail_bounds bs (len_ids - istart c)).
        replace (Z.to_nat _) with 0%nat by lia. done. }
    assert (iend bs c = istart c + bs) as Hiend.
    { unfold iend. rewrite Hpre. unfold Py.len. simpl. lia. }
    rewrite Hiend. destruct (Z.ltb_spec (istart c) (istart c + bs)); [|lia].
    simpl.
    assert (Py.len (selec text_ids bs c) = Z.min bs (len_ids - istart c)) as Hlen.
    { unfold selec. rewrite Hpre, Hiend. simpl.
      rewrite slice_len by lia. lia. }
    rewrite Hlen.
    destruct (Z.leb_spec (Z.min bs (len_ids - istart c)) 10) as [Hshort|Hlong].
    + (* the tail is too short: it is left *)
      exists []. split; [done|]. split; [|done]. simpl.
      unfold dropped_tail. rewrite Z.mod_small by lia.
      destruct (Z.leb_spec (len_ids - istart c) 10); [|lia].
      replace (Z.to_nat _) with 0%nat by lia. done.
    + destruct (IH {| istart := istart c + bs; add_prefix := add_prefix c |})
        as (segs & -> & Hcat & Hall); simpl; [done|lia|lia|].
      eexists. split; [done|]. simpl in *.
      replace (len_ids - (istart c + bs)) with (len_ids - istart c - bs) in * by lia.
      unfold dropped_tail in *.
      rewrite mod_sub_block in Hcat, Hall by lia.
      set (n := len_ids - istart c) in *.
      pose proof (Z.mod_pos_bound n bs ltac:(lia)) as Hmod.
      assert (Py.slice text_ids (istart c) (iend bs c)
              = take (Z.to_nat bs) (drop (Z.to_nat (istart c)) text_ids)) as Hbody.
      { rewrite Hiend, slice_take_drop by lia. f_equal. lia. }
      split.
      * change (list_fmap segment (list Z) seg_body segs) with (seg_body <$> segs).
        rewrite Hcat, Hbody.
        replace (Z.to_nat (istart c + bs)) with (Z.to_nat (istart c) + Z.to_nat bs)%nat by lia.
        rewrite <- drop_drop, take_take_drop.
        destruct (decide (bs ≤ n)) as [Hfull|Hpart].
        -- assert (n `mod` bs ≤ n - bs).
           { rewrite <- (mod_sub_block bs n) by lia. apply Z.mod_le; lia. }
           f_equal. destruct (n `mod` bs <=? 10); lia.
        -- rewrite (Z.mod_small n bs) by lia.
           destruct (Z.leb_spec n 10); [lia|].
           assert (length (drop (Z.to_nat (istart c)) text_ids) = Z.to_nat n) as Hd.
           { rewrite length_drop. unfold n, Py.len. lia. }
           rewrite !take_ge; [done|lia..].
      * constructor.
        -- split; [exact Hpre|]. intros Hr. simpl. unfold padded, selec.
           rewrite Hpre. simpl.
           destruct (decide (bs ≤ n)) as [|Hpart].
           ++ rewrite slice_len by lia. rewrite Hiend.
              destruct (Z.ltb_spec (Z.max 0 (Z.min (istart c + bs) len_ids - istart c)) bs);
                [lia|]. by rewrite andb_false_r.
           ++ rewrite (Z.mod_small n bs) in Hr by lia. lia.
        -- done.
Qed.

(** The short-tail policy of naive cutting (lines 220-222).  With
    turn-aware cutting off, a final fragment of 10 tokens or fewer is
    dropped silently: for a block size above 10 and a text whose
    length leaves a remainder [r] with [0 < r ≤ 10], the run ends
    normally and the emitted arrays, put end to end, are exactly the
    text without its last [r] tokens (nothing padded).  More
    generally the loop stops, emitting nothing and raising nothing, at
    any cursor with at most 10 tokens left. *)
Theorem short_tail_policy bs :
  0 < bs →
  (10 < bs → bs < Py.len text_ids → 0 < Py.len text_ids `mod` bs ≤ 10 →
     ∃ segs,
       cut_in_chunks tok tag_token_prefix tag_token_suffix
           padding false text_ids (Some bs) = (segs, Ok ()) ∧
       concat (seg_array <$> segs)
         = take (Z.to_nat (Py.len text_ids - Py.len text_ids `mod` bs)) text_ids) ∧
  (∀ fuel c,
     add_prefix c = [] → 0 ≤ istart c < Py.len text_ids → Py.len text_ids - istart c ≤ 10 →
     chunk_loop tok tag_token_prefix tag_token_suffix
         padding false text_ids bs (S fuel) c = ([], Ok ())).
Proof.
  intros Hbs. split.
  - intros Hbs10 Hlong Hr. unfold cut_in_chunks.
    destruct (Z.eqb_spec bs 0); [lia|].
    destruct (Z.ltb_spec bs len_ids); [|lia]. simpl.
    destruct (naive_loop bs (length text_ids) {| istart := 0; add_prefix := [] |})
      as (segs & Hrun & Hcat & Hall); simpl; [done|done|done|unfold Py.len; lia|].
    exists segs. split; [done|].
    rewrite Z.sub_0_r in *. unfold dropped_tail in Hcat.
    destruct (Z.leb_spec (len_ids `mod` bs) 10); [|lia].
    simpl in Hcat. rewrite drop_0 in Hcat.
    rewrite <- Hcat. f_equal. apply Forall_fmap_ext_1.
    eapply Forall_impl; [exact Hall|]. simpl. intros s [_ Hs]. apply Hs. lia.
  - intros fuel c Hpre Hc Hleft. simpl.
    destruct (Z.ltb_spec (istart c) len_ids); [|lia].
    assert (iend bs c = istart c + bs) as Hiend.
    { unfold iend. rewrite Hpre. unfold Py.len. simpl. lia. }
    rewrite Hiend. destruct (Z.ltb_spec (istart c) (istart c + bs)); [|lia].
    simpl. unfold selec. rewrite Hpre, Hiend. simpl.
    rewrite slice_len by lia.
    destruct (Z.leb_spec (Z.max 0 (Z.min (istart c + bs) len_ids - istart c)) 10);
      [done|lia].
Qed.

(** *** Where the closing tag is searched *)

Lemma lookahead_lookup bs c (k : nat) t :
  0 ≤ istart c → istart c < iend bs c →
  lookahead' bs c !! k = Some t ↔
  Z.of_nat k < bs - Py.len (add_prefix c) + 10 ∧
  text_ids !! (Z.to_nat (istart c) + k)%nat = Some t.
Proof.
  intros Hc Hw. unfold lookahead. rewrite slice_lookup by lia.
  unfold iend. case_bool_decide; [split; [intros; split; [lia|done]|naive_solver]|].
  split; [done|]. intros [? _]. lia.
Qed.

(** C3 (amended). In every iteration the closing tag is searched in
    [text_ids[istart : iend + 10]] with
    [iend = istart + bs - len(add_prefix)]: 10 tokens past the end of
    the window actually emitted.  This is the range
    [[istart, istart + bs + 10)] when no prefix is carried; a carried
    prefix shortens it by its length.  The tag is found iff it occurs
    in that range, and when it does not the iteration takes the naive
    advance of Case 2, keeping the carried prefix. *)
Theorem closing_tag_search_range bs c :
  0 ≤ istart c → istart c < iend bs c →
  (∀ (k : nat) t,
      lookahead text_ids bs c !! k = Some t ↔
      Z.of_nat k < bs - Py.len (add_prefix c) + 10 ∧
      text_ids !! (Z.to_nat (istart c) + k)%nat = Some t) ∧
  (add_prefix c = [] →
      lookahead text_ids bs c = Py.slice text_ids (istart c) (istart c + bs + 10)) ∧
  (is_Some (last (Py.where_eq (lookahead text_ids bs c) tag_token_suffix)) ↔
     ∃ j, istart c ≤ j < istart c + bs - Py.len (add_prefix c) + 10 ∧
          text_ids !! Z.to_nat j = Some tag_token_suffix) ∧
  ((∀ j, istart c ≤ j < istart c + bs - Py.len (add_prefix c) + 10 →
         text_ids !! Z.to_nat j ≠ Some tag_token_suffix) →
     next_cursor tok tag_token_prefix tag_token_suffix text_ids bs c =
       (i ← naive_advance tok text_ids bs (istart c) ;
        _ ← assert (istart c <? i) CursorAdvanced ;
        Ok {| istart := i; add_prefix := add_prefix c |})).
Proof.
  intros Hc Hw.
  assert (is_Some (last (Py.where_eq (lookahead' bs c) tag_token_suffix)) ↔
     ∃ j, istart c ≤ j < istart c + bs - Py.len (add_prefix c) + 10 ∧
          text_ids !! Z.to_nat j = Some tag_token_suffix) as Hfound.
  { rewrite <- not_eq_None_Some, last_where_eq_None. split.
    - intros Hin. destruct (decide (tag_token_suffix ∈ lookahead' bs c)) as [Hel|]; [|done].
      apply list_elem_of_lookup in Hel as (k & Hk).
      apply lookahead_lookup in Hk as [Hk Hl]; [|done..].
      exists (istart c + Z.of_nat k). split; [lia|].
      replace (Z.to_nat (istart c + Z.of_nat k)) with (Z.to_nat (istart c) + k)%nat by lia.
      done.
    - intros (j & Hj & Hl) Hnot. apply Hnot.
      apply (list_elem_of_lookup_2 _ (Z.to_nat (j - istart c))).
      apply lookahead_lookup; [done..|]. split; [lia|].
      replace (Z.to_nat (istart c) + Z.to_nat (j - istart c))%nat with (Z.to_nat j) by lia.
      done. }
  split_and!.
  - intros k t. by apply lookahead_lookup.
  - intros Hpre. unfold lookahead, iend. rewrite Hpre. unfold Py.len. simpl.
    f_equal. lia.
  - done.
  - intros Hnone. unfold next_cursor.
    destruct (last (Py.where_eq (lookahead' bs c) tag_token_suffix)) as [e|] eqn:Hlast;
      [|by destruct (naive_advance' bs (istart c))].
    exfalso. destruct (proj1 Hfound) as (j & Hj & Hl); [by eauto|].
    by eapply Hnone.
Qed.

(** *** Which tokens the segments hold *)

Abbreviation covered' := (covered text_ids).

Lemma covered_cons s segs i : covered' segs i → covered' (s :: segs) i.
Proof. intros (s' & Hin & H). exists s'. split; [by right|done]. Qed.

(** With no carried prefix the segment of a cursor holds the whole
    naive window. *)
Lemma segment_at_covers bs c i :
  add_prefix c = [] → 0 ≤ istart c →
  istart c ≤ i < istart c + bs → i < len_ids →
  covered' [segment_at' bs c] i.
Proof.
  intros Hpre Hc Hi Hlen. exists (segment_at' bs c). split; [left|]. simpl.
  assert (iend bs c = istart c + bs) as ->.
  { unfold iend. rewrite Hpre. unfold Py.len. simpl. lia. }
  rewrite slice_len by lia. split; [lia|].
  rewrite slice_lookup by lia.
  rewrite bool_decide_eq_true_2 by lia. f_equal. lia.
Qed.

(** An iteration that ends at or past the end of the text had its
    naive window reach the end. *)
Lemma next_cursor_end bs c c' :
  0 ≤ istart c → istart c < iend bs c →
  next_cursor' bs c = Ok c' → len_ids ≤ istart c' → len_ids ≤ istart c + bs.
Proof.
  intros Hc Hw [(sot & Hsot & Hc' & _)|[Hadv _]]%next_cursor_Ok_inv Hend.
  - exfalso. unfold lookahead in Hsot. rewrite slice_len in Hsot by lia. lia.
  - by eapply naive_advance_end.
Qed.

(** A turn-aware loop that ends normally from a cursor inside the
    text starts with the segment of that cursor. *)
Lemma turn_loop_Ok_inv bs fuel c segs :
  chunk_loop' true bs fuel c = (segs, Ok ()) → istart c < len_ids →
  ∃ fuel' c' segs',
    fuel = S fuel' ∧ istart c < iend bs c ∧ next_cursor' bs c = Ok c' ∧
    chunk_loop' true bs fuel' c' = (segs', Ok ()) ∧
    segs = segment_at' bs c :: segs'.
Proof.
  intros Hrun Hin. destruct fuel as [|fuel]; simpl in Hrun;
    destruct (Z.ltb_spec (istart c) len_ids); try lia; [done|].
  destruct (Z.ltb_spec (istart c) (iend bs c)); simpl in Hrun; [|done].
  destruct (next_cursor' bs c) as [c'| |] eqn:Hnext; [|done..].
  destruct (chunk_loop' true bs fuel c') as [segs' st] eqn:Hrest.
  unfold emit in Hrun. simpl in Hrun. simplify_eq.
  by exists fuel, c', segs'.
Qed.

Lemma turn_loop_covers bs fuel c segs :
  0 ≤ istart c →
  chunk_loop' true bs fuel c = (segs, Ok ()) →
  (∀ s, s ∈ segs → seg_prefix s = []) →
  (∀ (k : nat) s s', segs !! k = Some s → segs !! S k = Some s' →
     seg_istart s' ≤ seg_istart s + bs) →
  ∀ i, istart c ≤ i < len_ids → covered' segs i.
Proof.
  revert c segs. induction fuel as [|fuel IH];
    intros c segs Hc Hrun Hpre Hchain i Hi.
  { apply turn_loop_Ok_inv in Hrun as (? & ? & ? & ? & _); [done|lia]. }
  apply turn_loop_Ok_inv in Hrun
    as (fuel' & c' & segs' & [= <-] & Hw & Hnext & Hrest & ->); [|lia].
  assert (add_prefix c = []) as Hpre0 by (apply (Hpre (segment_at' bs c)); left).
  destruct (decide (i < istart c + bs)) as [Hnear|Hfar].
  { destruct (segment_at_covers bs c i Hpre0 Hc)
      as (s & ->%list_elem_of_singleton & Hs); [lia|lia|].
    exists (segment_at' bs c). split; [left|done]. }
  apply covered_cons.
  pose proof (next_cursor_gt _ _ _ Hnext) as Hgt.
  destruct (decide (istart c' < len_ids)) as [Hin'|Hout'].
  - pose proof Hrest as (? & ? & segs'' & _ & _ & _ & _ & ->)%turn_loop_Ok_inv; [|done].
    apply (IH c'); [lia|done| | |].
    + intros s Hs. apply Hpre. by right.
    + intros k s s' Hk Hk'. by apply (Hchain (S k)).
    + specialize (Hchain 0%nat _ _ eq_refl eq_refl). simpl in Hchain. lia.
  - pose proof (next_cursor_end _ _ _ Hc Hw Hnext). lia.
Qed.

(** Where the text is covered.  For a text longer than the block
    size: with turn-aware cutting off (and a block size above the
    10-token floor) the run ends normally and the bodies of the
    segments, put end to end, are the text without the final fragment
    of at most 10 tokens that the short-tail policy drops; with
    turn-aware cutting on, on a normal run in which no segment carries
    a prefix and each cursor lies at most one block size after the
    previous one, every token of the text lies in the body of some
    emitted segment. *)
Theorem chunks_cover_text bs :
  bs < Py.len text_ids →
  (10 < bs →
     ∃ segs,
       cut_in_chunks tok tag_token_prefix tag_token_suffix
           padding false text_ids (Some bs) = (segs, Ok ()) ∧
       concat (seg_body <$> segs)
         = take (Z.to_nat (Py.len text_ids - dropped_tail bs (Py.len text_ids))) text_ids ∧
       0 ≤ dropped_tail bs (Py.len text_ids) ≤ 10) ∧
  (∀ segs,
     cut_in_chunks tok tag_token_prefix tag_token_suffix
         padding true text_ids (Some bs) = (segs, Ok ()) →
     (∀ s, s ∈ segs → seg_prefix s = []) →
     (∀ (k : nat) s s', segs !! k = Some s → segs !! S k = Some s' →
        seg_istart s' ≤ seg_istart s + bs) →
     ∀ i, 0 ≤ i < Py.len text_ids → covered text_ids segs i).
Proof.
  intros Hlong. split.
  - intros Hbs. unfold cut_in_chunks.
    destruct (Z.eqb_spec bs 0); [lia|].
    destruct (Z.ltb_spec bs len_ids); [|lia]. simpl.
    destruct (naive_loop bs (length text_ids) {| istart := 0; add_prefix := [] |})
      as (segs & Hrun & Hcat & _); simpl; [done|done|done|unfold Py.len; lia|].
    exists segs. split; [done|]. simpl in Hcat.
    rewrite Z.sub_0_r, drop_0 in Hcat. split; [done|].
    apply dropped_tail_bounds. lia.
  - intros segs. unfold cut_in_chunks.
    destruct (Z.ltb_spec bs len_ids); [|lia].
    destruct (Z.eqb_spec bs 0) as [->|Hbs]; simpl.
    + intros [= <-] _ _ i Hi. exists (whole_text tok padding text_ids (Some 0)).
      split; [left|]. simpl. split; [lia|]. f_equal. lia.
    + intros Hrun Hpre Hchain i Hi.
      by apply (turn_loop_covers bs (length text_ids) {| istart := 0; add_prefix := [] |}).
Qed.

End ChunkerFacts.

(** ** The augmentation generator *)

Section GeneratorFacts.
Context {Rng : Type}.
Context (render : nat → string → Rng → string * Rng).

Abbreviation generate_from' := (generate_from render).

(** What has been emitted stays in front. *)
Lemma generate_from_prefix levels cap text emitted rng :
  emitted `prefix_of` generate_from' levels cap text emitted rng.
Proof.
  revert emitted rng. induction levels as [|k levels IH]; intros emitted rng; simpl.
  - done.
  - destruct (from_option _ _ _); [done|].
    destruct (render k text rng) as [v rng'].
    case_bool_decide; [apply IH|].
    etrans; [|apply IH]. by apply prefix_app_r.
Qed.

(** No duplicate is ever emitted. *)
Lemma generate_from_NoDup levels cap text emitted rng :
  NoDup emitted → NoDup (generate_from' levels cap text emitted rng).
Proof.
  revert emitted rng. induction levels as [|k levels IH]; intros emitted rng Hnd; simpl.
  - done.
  - destruct (from_option _ _ _); [done|].
    destruct (render k text rng) as [v rng'].
    case_bool_decide; [by apply IH|].
    apply IH. apply NoDup_app. split_and!; [done| |apply NoDup_singleton].
    intros x Hx ->%list_elem_of_singleton. done.
Qed.

(** Stopping at [n] variants gives the first [n] of the full
    staircase. *)
Lemma generate_from_cap levels n text emitted rng :
  length emitted ≤ n →
  generate_from' levels (Some n) text emitted rng
  = take n (generate_from' levels None text emitted rng).
Proof.
  revert emitted rng. induction levels as [|k levels IH]; intros emitted rng Hlen; simpl.
  - by rewrite take_ge.
  - case_bool_decide as Hcap.
    + destruct (render k text rng) as [v rng'].
      assert (∀ l, emitted `prefix_of` l → emitted = take n l) as Htake.
      { intros l [k' ->]. rewrite take_app_le by lia. by rewrite take_ge by lia. }
      case_bool_decide; apply Htake.
      * apply generate_from_prefix.
      * etrans; [|apply generate_from_prefix]. by apply prefix_app_r.
    + destruct (render k text rng) as [v rng'].
      case_bool_decide; apply IH; [lia|].
      rewrite length_app. simpl. lia.
Qed.

(** The first candidate is always emitted, and stays first. *)
Lemma generate_from_first k levels cap text rng :
  from_option (λ n, bool_decide (n ≤ 0)) false cap = false →
  [(render k text rng).1]
    `prefix_of` generate_from' (k :: levels) cap text [] rng.
Proof.
  intros Hcap. simpl. rewrite Hcap.
  destruct (render k text rng) as [v rng']. simpl.
  apply generate_from_prefix.
Qed.

(** C2. For a non-negative level [L] the generator returns
    [min (M + 1) (L + 1)] variants, [M] being the maximum
    distinct-variant count of the text; the variants are pairwise
    distinct; and the first is the canonical level-0 normalization. *)
Theorem generate_count_distinct_first text (L : Z) rng :
  (0 ≤ L)%Z →
  ∃ variants,
    generate render text (Some L) rng = Ok variants ∧
    length variants
      = Nat.min (maximum_variants render text rng + 1) (Z.to_nat L + 1) ∧
    NoDup variants ∧
    variants !! 0 = Some (normalized render text rng).
Proof.
  intros HL. unfold generate, maximum_variants, normalized.
  destruct (Z.ltb_spec L 0) as [|_]; [lia|].
  eexists. split; [done|].
  set (full := generate_from' (seq 0 (S max_level)) None text [] rng).
  assert ([(render 0 text rng).1] `prefix_of` full) as Hfull.
  { by apply generate_from_first. }
  assert ([(render 0 text rng).1]
            `prefix_of` generate_from' (seq 0 (S max_level))
                          (Some (Z.to_nat L + 1)) text [] rng) as Hcap.
  { apply generate_from_first. simpl. apply bool_decide_eq_false_2. lia. }
  split_and!.
  - rewrite generate_from_cap by (simpl; lia). fold full.
    rewrite length_take. apply prefix_length in Hfull. simpl in Hfull. lia.
  - apply generate_from_NoDup. constructor.
  - by destruct Hcap as [k ->].
Qed.

End GeneratorFacts.

(** ** The theorems at concrete inputs *)

Section Instances.
Local Open Scope Z_scope.

Lemma len_plain_ids : Py.len plain_ids = 25.
Proof. reflexivity. Qed.

(** Counterexample to C1 as stated: on [one_turn_ids] with blocks of 4
    the run ends normally, the second segment carries the tag [1; 2]
    and takes two tokens only, the cursor then moves on by 4, and the
    tokens 24 and 25 are in no emitted array. *)
Lemma chunks_leave_gap :
  ¬ (∀ (tok : Tokenizer) (tag_token_prefix tag_token_suffix : Z)
       (padding cut_around_turns : bool) (text_ids : list Z) (bs : Z) segs,
       bs < Py.len text_ids →
       cut_in_chunks tok tag_token_prefix tag_token_suffix padding
         cut_around_turns text_ids (Some bs) = (segs, Ok ()) →
       ∀ t, t ∈ text_ids → ∃ s, s ∈ segs ∧ t ∈ seg_array s).
Proof.
  intros H.
  destruct (H example_tokenizer 1 2 true true one_turn_ids 4
              [ {| seg_istart := 0; seg_prefix := []; seg_body := [1; 2; 20; 21];
                   seg_array := [1; 2; 20; 21] |};
                {| seg_istart := 4; seg_prefix := [1; 2]; seg_body := [22; 23];
                   seg_array := [1; 2; 22; 23] |} ]
              eq_refl eq_refl 24) as (s & Hs & Ht).
  - apply list_elem_of_In. simpl. tauto.
  - apply list_elem_of_In in Hs. simpl in Hs.
    destruct Hs as [<-|[<-|[]]]; apply list_elem_of_In in Ht; simpl in Ht;
      intuition discriminate.
Qed.

Lemma chunks_cover_text_witness :
  12 < Py.len plain_ids ∧
  (∃ segs,
     cut_in_chunks example_tokenizer 1 2 true false plain_ids (Some 12)
       = (segs, Ok ()) ∧
     concat (seg_body <$> segs)
       = take (Z.to_nat (Py.len plain_ids - dropped_tail 12 (Py.len plain_ids)))
           plain_ids ∧
     0 ≤ dropped_tail 12 (Py.len plain_ids) ≤ 10) ∧
  (∀ i, 0 ≤ i < Py.len plain_ids →
     covered plain_ids
       (cut_in_chunks example_tokenizer 1 2 true true plain_ids (Some 12)).1 i).
Proof.
  assert (12 < Py.len plain_ids) as Hlong by (rewrite len_plain_ids; lia).
  destruct (chunks_cover_text example_tokenizer 1 2 true plain_ids 12 Hlong)
    as [Hnaive Hturn].
  split; [done|]. split; [apply Hnaive; lia|].
  apply Hturn.
  - vm_compute. reflexivity.
  - apply Forall_forall. vm_compute. repeat constructor.
  - intros k s s' Hk Hk'.
    destruct k as [|[|[|k]]]; vm_compute in Hk, Hk';
      try discriminate; injection Hk as <-; injection Hk' as <-;
      vm_compute; discriminate.
Defined.

(** C1. The run that breaks the coverage claim, evaluated: turn-aware
    cutting of [one_turn_ids] (8 tokens, one tag in front) with blocks
    of 4.  The first iteration carries the tag [1; 2] (Case A.2) and
    moves the cursor to 4.  The second window is shortened by the two
    carried tokens and holds the tokens at 4 and 5 only, but the cursor
    still advances by the whole block, to 8, the end of the text.  The
    run ends normally, and the tokens at 6 and 7 (24 and 25) are in the
    body of no segment and in no emitted array. *)
Theorem carried_prefix_skips_tokens :
  4 < Py.len one_turn_ids ∧
  cut_in_chunks example_tokenizer 1 2 true true one_turn_ids (Some 4)
  = ([ {| seg_istart := 0; seg_prefix := []; seg_body := [1; 2; 20; 21];
          seg_array := [1; 2; 20; 21] |};
       {| seg_istart := 4; seg_prefix := [1; 2]; seg_body := [22; 23];
          seg_array := [1; 2; 22; 23] |} ], Ok ()) ∧
  next_cursor example_tokenizer 1 2 one_turn_ids 4
    {| istart := 4; add_prefix := [1; 2] |}
  = Ok {| istart := 8; add_prefix := [1; 2] |} ∧
  iend 4 {| istart := 4; add_prefix := [1; 2] |} = 6 ∧
  (∀ i, 6 ≤ i < 8 →
     ¬ covered one_turn_ids
         (cut_in_chunks example_tokenizer 1 2 true true one_turn_ids (Some 4)).1
         i) ∧
  (∀ t, t ∈ drop 6 one_turn_ids →
     ∀ s, s ∈ (cut_in_chunks example_tokenizer 1 2 true true one_turn_ids
                 (Some 4)).1 →
          t ∉ seg_array s).
Proof.
  split; [unfold Py.len; simpl; lia|].
  split; [reflexivity|]. split; [reflexivity|]. split; [reflexivity|].
  split.
  - intros i Hi (s & Hs & Hin & _).
    apply list_elem_of_In in Hs. simpl in Hs.
    destruct Hs as [<-|[<-|[]]]; simpl in Hin; unfold Py.len in Hin;
      simpl in Hin; lia.
  - intros t Ht s Hs Hin.
    apply list_elem_of_In in Ht, Hs, Hin. simpl in Ht, Hs.
    destruct Hs as [<-|[<-|[]]]; destruct Ht as [<-|[<-|[]]];
      simpl in Hin; intuition discriminate.
Qed.

(** C6. Turn-aware cutting applies no 10-token floor, yet a short
    final fragment can be lost: on [one_turn_ids] with blocks of 4 the
    run ends normally, its last segment ends at token 6, and the final
    fragment of two tokens, [24; 25], is emitted in no array, padded or
    not. *)
Theorem turn_aware_final_fragment_lost :
  (cut_in_chunks example_tokenizer 1 2 true true one_turn_ids (Some 4)).2
    = Ok () ∧
  (∃ s, last (cut_in_chunks example_tokenizer 1 2 true true one_turn_ids
                (Some 4)).1 = Some s ∧
        seg_istart s + Py.len (seg_body s) = 6 ∧
        seg_array s = [1; 2; 22; 23]) ∧
  drop 6 one_turn_ids = [24; 25] ∧
  Py.len (drop 6 one_turn_ids) ≤ 10 ∧
  Forall (λ s, (24 ∉ seg_array s) ∧ (25 ∉ seg_array s))
    (cut_in_chunks example_tokenizer 1 2 true true one_turn_ids (Some 4)).1.
Proof.
  split; [reflexivity|]. split.
  { eexists. split; [reflexivity|]. split; reflexivity. }
  split; [reflexivity|]. split; [unfold Py.len; simpl; lia|].
  repeat constructor; intros Hin; apply list_elem_of_In in Hin; simpl in Hin;
    intuition discriminate.
Qed.

Lemma generate_count_distinct_first_witness :
  0 ≤ 4 ∧
  ∃ variants,
    generate example_render "a" (Some 4) () = Ok variants ∧
    length variants
      = Nat.min (maximum_variants example_render "a" () + 1) (Z.to_nat 4 + 1) ∧
    NoDup variants ∧
    variants !! 0%nat = Some (normalized example_render "a" ()).
Proof.
  split; [lia|]. apply (generate_count_distinct_first example_render "a" 4 ()). lia.
Defined.

Example generate_ex :
  generate example_render "a" (Some 4) () = Ok ["a"; "a."; "a.."]%string ∧
  generate example_render "a" (Some 1) () = Ok ["a"; "a."]%string ∧
  generate example_render "a" (Some (-1)) () = Raise ArgumentError ∧
  maximum_variants example_render "a" () = 2%nat.
Proof. done. Qed.

(** Counterexample to C3 as stated: in the run on [two_turn_ids] with
    blocks of 4, the second iteration carries the prefix [1; 2]; its
    search stops at index 16 (excluded) and misses the closing tag
    there, which lies inside [[istart, istart + bs + 10)]. *)
Lemma closing_tag_search_shrinks :
  ¬ (∀ (tok : Tokenizer) (tag_token_prefix tag_token_suffix : Z)
       (padding : bool) (text_ids : list Z) (bs : Z) s,
       s ∈ (cut_in_chunks tok tag_token_prefix tag_token_suffix padding true
              text_ids (Some bs)).1 →
       lookahead text_ids bs
         {| istart := seg_istart s; add_prefix := seg_prefix s |}
       = Py.slice text_ids (seg_istart s) (seg_istart s + bs + 10)).
Proof.
  intros H.
  specialize (H example_tokenizer 1 2 true two_turn_ids 4
                {| seg_istart := 4; seg_prefix := [1; 2]; seg_body := [22; 23];
                   seg_array := [1; 2; 22; 23] |}).
  assert (lookahead two_turn_ids 4 {| istart := 4; add_prefix := [1; 2] |}
          = Py.slice two_turn_ids 4 (4 + 4 + 10)) as Heq.
  { apply H. vm_compute. right. left. }
  vm_compute in Heq. discriminate.
Qed.

Example closing_tag_missed :
  two_turn_ids !! 16%nat = Some 2 ∧
  next_cursor example_tokenizer 1 2 two_turn_ids 4
    {| istart := 4; add_prefix := [1; 2] |}
  = Ok {| istart := 8; add_prefix := [1; 2] |}.
Proof. done. Qed.

Lemma closing_tag_search_range_witness :
  0 ≤ istart {| istart := 4; add_prefix := [1; 2] |} ∧
  istart {| istart := 4; add_prefix := [1; 2] |}
    < iend 4 {| istart := 4; add_prefix := [1; 2] |} ∧
  (∀ (k : nat) t,
      lookahead two_turn_ids 4 {| istart := 4; add_prefix := [1; 2] |} !! k = Some t ↔
      Z.of_nat k < 4 - Py.len [1; 2] + 10 ∧
      two_turn_ids !! (Z.to_nat 4 + k)%nat = Some t) ∧
  (is_Some (last (Py.where_eq
                    (lookahead two_turn_ids 4 {| istart := 4; add_prefix := [1; 2] |})
                    2)) ↔
     ∃ j, 4 ≤ j < 4 + 4 - Py.len [1; 2] + 10 ∧
          two_turn_ids !! Z.to_nat j = Some 2) ∧
  next_cursor example_tokenizer 1 2 two_turn_ids 4
    {| istart := 4; add_prefix := [1; 2] |}
  = (i ← naive_advance example_tokenizer two_turn_ids 4 4 ;
     _ ← assert (4 <? i) CursorAdvanced ;
     Ok {| istart := i; add_prefix := [1; 2] |}).
Proof.
  assert (0 ≤ istart {| istart := 4; add_prefix := [1; 2] |}) as H0 by (simpl; lia).
  assert (istart {| istart := 4; add_prefix := [1; 2] |}
            < iend 4 {| istart := 4; add_prefix := [1; 2] |}) as H1
    by (vm_compute; reflexivity).
  destruct (closing_tag_search_range example_tokenizer 1 2 two_turn_ids 4
              {| istart := 4; add_prefix := [1; 2] |} H0 H1)
    as (Hlook & _ & Hfound & Hcase2).
  split; [done|]. split; [done|]. split; [exact Hlook|]. split; [exact Hfound|].
  apply Hcase2. simpl. intros j Hj.
  assert (j = 4 ∨ j = 5 ∨ j = 6 ∨ j = 7 ∨ j = 8 ∨ j = 9 ∨ j = 10 ∨ j = 11 ∨
          j = 12 ∨ j = 13 ∨ j = 14 ∨ j = 15) as Hcases
    by (unfold Py.len in Hj; simpl in Hj; lia).
  destruct Hcases as [->|[->|[->|[->|[->|[->|[->|[->|[->|[->|[->| ->]]]]]]]]]]];
    vm_compute; discriminate.
Defined.

(** Counterexample to C4 as stated: on [long_word_ids] with blocks of
    2 there is no closing tag in sight, the cursor moves to 2 and the
    walk back to a word start returns to 0, where the iteration began;
    the closing assertion fails. *)
Lemma cursor_assertion_can_fail :
  ¬ (∀ (tok : Tokenizer) (tag_token_prefix tag_token_suffix : Z)
       (padding : bool) (text_ids : list Z) (bs : Z),
       (cut_in_chunks tok tag_token_prefix tag_token_suffix padding true
          text_ids (Some bs)).2
       ≠ Raise (AssertionError CursorAdvanced)).
Proof.
  intros H. by apply (H example_tokenizer 1 2 true long_word_ids 2).
Qed.

Lemma cursor_strictly_increases_witness :
  0 < 4 ∧
  (∀ c c', next_cursor example_tokenizer 1 2 two_turn_ids 4 c = Ok c' →
           istart c < istart c') ∧
  (∀ ebs (k : nat) s s',
      (cut_in_chunks example_tokenizer 1 2 true true two_turn_ids ebs).1 !! k
        = Some s →
      (cut_in_chunks example_tokenizer 1 2 true true two_turn_ids ebs).1 !! S k
        = Some s' →
      seg_istart s < seg_istart s') ∧
  (∀ c, 0 ≤ istart c →
      next_cursor example_tokenizer 1 2 two_turn_ids 4 c
        = Raise (AssertionError CursorAdvanced) →
      istart c + 4 < Py.len two_turn_ids ∧
      ∀ j, istart c < j ≤ istart c + 4 →
           ¬ word_start example_tokenizer two_turn_ids j) ∧
  (∀ c,
      next_cursor example_tokenizer 1 2 two_turn_ids 4 c
        = Raise (AssertionError CursorAdvanced) ↔
      (last (Py.where_eq (lookahead two_turn_ids 4 c) 2) = None ∨
       ∃ end_of_turn,
         last (Py.where_eq (lookahead two_turn_ids 4 c) 2) = Some end_of_turn ∧
         last (Py.where_eq (Py.slice (lookahead two_turn_ids 4 c) 0 end_of_turn)
                 1) = Some 0) ∧
      ∃ j, naive_advance example_tokenizer two_turn_ids 4 (istart c) = Ok j ∧
           j ≤ istart c) ∧
  (∀ c end_of_turn start_of_turn,
      last (Py.where_eq (lookahead two_turn_ids 4 c) 2) = Some end_of_turn →
      last (Py.where_eq (Py.slice (lookahead two_turn_ids 4 c) 0 end_of_turn) 1)
        = Some start_of_turn →
      0 < start_of_turn →
      next_cursor example_tokenizer 1 2 two_turn_ids 4 c
        ≠ Raise (AssertionError CursorAdvanced) ∧
      (0 ≤ istart c → istart c < iend 4 c →
       next_cursor example_tokenizer 1 2 two_turn_ids 4 c
         = Ok {| istart := istart c + start_of_turn; add_prefix := [] |})).
Proof.
  split; [lia|].
  apply (cursor_strictly_increases example_tokenizer 1 2 true two_turn_ids true 4).
  lia.
Defined.

(** Case A.1 on [two_turn_ids]: from cursor 8 the lookahead reaches the
    second tag, whose opening token is at offset 7; the next cursor is
    on it and carries no prefix. *)
Example cursor_realigned_ex :
  next_cursor example_tokenizer 1 2 two_turn_ids 4
    {| istart := 8; add_prefix := [] |}
  = Ok {| istart := 15; add_prefix := [] |}.
Proof. reflexivity. Qed.

Lemma short_text_single_segment_witness :
  Py.len [20; 21; 22] ≤ 5 ∧
  ∃ s,
    cut_in_chunks example_tokenizer 1 2 true true [20; 21; 22] (Some 5)
      = ([s], Ok ()) ∧
    seg_body s = [20; 21; 22] ∧ seg_prefix s = [] ∧
    (true = true → Py.len [20; 21; 22] < 5 →
       seg_array s
         = [20; 21; 22] ++ replicate (Z.to_nat (5 - Py.len [20; 21; 22]))
                             (eos_id example_tokenizer) ∧
       Py.len (seg_array s) = 5) ∧
    (Py.len [20; 21; 22] = 5 → seg_array s = [20; 21; 22]) ∧
    (true = false → seg_array s = [20; 21; 22]).
Proof.
  assert (Py.len [20; 21; 22] ≤ 5) as Hshort by (vm_compute; discriminate).
  split; [done|].
  exact (short_text_single_segment example_tokenizer 1 2 true [20; 21; 22] true 5 Hshort).
Defined.

Example short_text_ex :
  cut_in_chunks example_tokenizer 1 2 true true [20; 21; 22] (Some 5)
  = ([ {| seg_istart := 0; seg_prefix := []; seg_body := [20; 21; 22];
          seg_array := [20; 21; 22; 0; 0] |} ], Ok ()).
Proof. reflexivity. Qed.

Lemma short_tail_policy_witness :
  0 < 12 ∧
  (∃ segs,
     cut_in_chunks example_tokenizer 1 2 true false plain_ids (Some 12)
       = (segs, Ok ()) ∧
     concat (seg_array <$> segs)
       = take (Z.to_nat (Py.len plain_ids - Py.len plain_ids `mod` 12)) plain_ids) ∧
  chunk_loop example_tokenizer 1 2 true false plain_ids 12 1
    {| istart := 24; add_prefix := [] |} = ([], Ok ()).
Proof.
  assert (0 < 12) as Hbs by lia.
  destruct (short_tail_policy example_tokenizer 1 2 true plain_ids 12 Hbs)
    as (Hnaive & Hstop).
  split; [done|]. split.
  - apply Hnaive; rewrite ?len_plain_ids; [lia|lia|].
    change (25 `mod` 12) with 1. lia.
  - apply Hstop; simpl; rewrite ?len_plain_ids; [done|lia|lia].
Defined.

Example short_tail_ex :
  seg_array <$> (cut_in_chunks example_tokenizer 1 2 true false plain_ids (Some 12)).1
    = [Z.of_nat <$> seq 20 12; Z.of_nat <$> seq 32 12] ∧
  seg_array <$> (cut_in_chunks example_tokenizer 1 2 true true plain_ids (Some 12)).1
    = [Z.of_nat <$> seq 20 12; Z.of_nat <$> seq 32 12; 44 :: replicate 11 0].
Proof. split; reflexivity. Qed.

Lemma emitted_length_bound_witness :
  4 ≠ 0 ∧
  {| seg_istart := 4; seg_prefix := [1; 2]; seg_body := [22; 23];
     seg_array := [1; 2; 22; 23] |}
    ∈ (cut_in_chunks example_tokenizer 1 2 true true one_turn_ids (Some 4)).1 ∧
  Py.len [1; 2; 22; 23] ≤ 4 ∧
  (true = true → Py.len [1; 2; 22; 23] = 4).
Proof.
  assert (4 ≠ 0) as Hbs by lia.
  assert ({| seg_istart := 4; seg_prefix := [1; 2]; seg_body := [22; 23];
             seg_array := [1; 2; 22; 23] |}
            ∈ (cut_in_chunks example_tokenizer 1 2 true true one_turn_ids (Some 4)).1)
    as Hin by (vm_compute; right; left).
  split; [done|]. split; [done|].
  exact (emitted_length_bound example_tokenizer 1 2 true one_turn_ids true 4 _ Hbs Hin).
Defined.

End Instances.

(** ** The number and size of the output files *)

Section SizingFacts.
Local Open Scope Z_scope.

(** For a positive divisor [ceil_div] is the least integer [c] with
    [a ≤ c * b]. *)
Lemma ceil_div_pos a b :
  0 < b → ∃ c, ceil_div a b = Sized c ∧ a ≤ c * b < a + b.
Proof.
  intros Hb. unfold ceil_div. destruct (Z.eqb_spec b 0); [lia|].
  eexists. split; [done|].
  pose proof (Z.div_mod (- a) b ltac:(lia)).
  pose proof (Z.mod_pos_bound (- a) b Hb). nia.
Qed.

Lemma ceil_div_zero a : ceil_div a 0 = ZeroDivisionError.
Proof. done. Qed.

Lemma ceil_div_of_zero b : b ≠ 0 → ceil_div 0 b = Sized 0.
Proof.
  intros Hb. unfold ceil_div. destruct (Z.eqb_spec b 0); [done|].
  change (- 0) with 0. by rewrite Z.div_0_l.
Qed.

(** The loop leaves with the least multiplier [it'], from [it] on,
    for which a file holds at most 512 segments; the fuel
    [num_segments_augmented - it] is enough. *)
Lemma fit_segments_per_file_spec N m fuel it p :
  0 < m → 0 < N → 1 ≤ it →
  N ≤ p * (m * it) < N + m * it →
  N - it ≤ Z.of_nat fuel →
  ∃ it' p',
    fit_segments_per_file N m fuel it p = Sized (it', p') ∧
    it ≤ it' ∧ N ≤ p' * (m * it') < N + m * it' ∧ p' ≤ 512 ∧
    (it' = it ∨ 512 * (m * (it' - 1)) < N).
Proof.
  intros Hm HN. revert it p.
  induction fuel as [|fuel IH]; intros it p Hit Hp Hfuel; simpl.
  - destruct (Z.ltb_spec 512 p) as [Hbig|Hok].
    + exfalso. nia.
    + exists it, p. split_and!; [done|lia|lia|lia|lia|by left].
  - destruct (Z.ltb_spec 512 p) as [Hbig|Hok].
    + destruct (ceil_div_pos N (m * (it + 1))) as (p1 & -> & Hp1); [nia|].
      simpl.
      destruct (IH (it + 1) p1) as (it' & p' & -> & Hle & Hp' & H512 & Hmin);
        [lia|lia|nia|].
      exists it', p'. split_and!; [done|lia|lia|lia|lia|].
      right. destruct Hmin as [->|Hmin]; [|done].
      replace (it + 1 - 1) with it by lia. nia.
    + exists it, p. split_and!; [done|lia|lia|lia|lia|by left].
Qed.

(** X1. With a positive [multiple_of] and at least one segment, the
    layout is computed without error: a file holds between 1 and 512
    segments, namely [ceil(N / (multiple_of * it))] for the least
    multiplier [it ≥ 1] that brings this under 512; the number of
    files is [ceil(N / per_file)], at least 1 and at most
    [multiple_of * it]; the padding is non-negative and less than one
    file; and the chunk size is the block size times the segments per
    file. *)
Theorem plan_files_layout (N multiple_of effective_block_size : Z) :
  0 < multiple_of → 0 < N →
  ∃ it layout,
    plan_files N multiple_of effective_block_size = Sized (it, layout) ∧
    1 ≤ it ∧ (it = 1 ∨ 512 * (multiple_of * (it - 1)) < N) ∧
    1 ≤ num_samples_per_file layout ≤ 512 ∧
    N ≤ num_samples_per_file layout * (multiple_of * it) < N + multiple_of * it ∧
    1 ≤ num_files layout ≤ multiple_of * it ∧
    N ≤ num_samples_per_file layout * num_files layout ∧
    num_padded layout
      = num_samples_per_file layout * num_files layout - N ∧
    0 ≤ num_padded layout < num_samples_per_file layout ∧
    chunk_size layout = effective_block_size * num_samples_per_file layout.
Proof.
  intros Hm HN. unfold plan_files.
  destruct (ceil_div_pos N multiple_of Hm) as (p0 & -> & Hp0). simpl.
  destruct (fit_segments_per_file_spec N multiple_of (Z.to_nat N) 1 p0)
    as (it & p & -> & Hit & Hp & H512 & Hmin); [done|done|lia|lia|lia|].
  simpl.
  assert (1 ≤ p) as Hp1 by nia.
  destruct (ceil_div_pos N p) as (nf & -> & Hnf); [lia|]. simpl.
  eexists _, _. split; [done|]. simpl.
  split_and!; try lia; try nia.
Qed.

Lemma plan_files_layout_witness :
  0 < 8 ∧ 0 < 5000 ∧
  ∃ it layout,
    plan_files 5000 8 2049 = Sized (it, layout) ∧
    1 ≤ it ∧ (it = 1 ∨ 512 * (8 * (it - 1)) < 5000) ∧
    1 ≤ num_samples_per_file layout ≤ 512 ∧
    5000 ≤ num_samples_per_file layout * (8 * it) < 5000 + 8 * it ∧
    1 ≤ num_files layout ≤ 8 * it ∧
    5000 ≤ num_samples_per_file layout * num_files layout ∧
    num_padded layout
      = num_samples_per_file layout * num_files layout - 5000 ∧
    0 ≤ num_padded layout < num_samples_per_file layout ∧
    chunk_size layout = 2049 * num_samples_per_file layout.
Proof.
  split; [lia|]. split; [lia|]. apply (plan_files_layout 5000 8 2049); lia.
Defined.

Example plan_files_ex :
  plan_files 5000 8 2049
  = Sized (2, {| num_samples_per_file := 313; chunk_size := 641337;
                 num_files := 16; num_padded := 8 |}) ∧
  plan_files 10 8 2049
  = Sized (1, {| num_samples_per_file := 2; chunk_size := 4098;
                 num_files := 5; num_padded := 0 |}).
Proof. split; reflexivity. Qed.

(** X2. A dataset without any segment, or [multiple_of = 0], makes the
    second pass fail with ZeroDivisionError: with no segment a file
    would hold [ceil(0 / multiple_of) = 0] segments, and the number of
    files is then [ceil(0 / 0)]. *)
Theorem plan_files_zero_division (N multiple_of effective_block_size : Z) :
  N = 0 ∨ multiple_of = 0 →
  plan_files N multiple_of effective_block_size = ZeroDivisionError.
Proof.
  intros [->| ->]; unfold plan_files.
  - destruct (decide (multiple_of = 0)) as [->|Hm]; [by rewrite ceil_div_zero|].
    by rewrite ceil_div_of_zero.
  - by rewrite ceil_div_zero.
Qed.

Lemma plan_files_zero_division_witness :
  (0 = 0 ∨ 8 = 0) ∧ plan_files 0 8 2049 = ZeroDivisionError.
Proof.
  split; [by left|]. apply (plan_files_zero_division 0 8 2049). by left.
Defined.

End SizingFacts.

(** ** The counters of a pass *)

Section CounterFacts.
Local Open Scope Z_scope.

Context (tok : Tokenizer).
Context (tag_token_prefix tag_token_suffix : Z).
Context (padding cut_around_turns : bool).
Context (effective_block_size : option Z).

Abbreviation cut_text text_ids :=
  (cut_in_chunks tok tag_token_prefix tag_token_suffix padding
     cut_around_turns text_ids effective_block_size).
Abbreviation count_variant' :=
  (count_variant tok tag_token_prefix tag_token_suffix padding
     cut_around_turns effective_block_size).
Abbreviation count_variants' :=
  (count_variants tok tag_token_prefix tag_token_suffix padding
     cut_around_turns effective_block_size).
Abbreviation count_texts' :=
  (count_texts tok tag_token_prefix tag_token_suffix padding
     cut_around_turns effective_block_size).
Abbreviation cut_in_several' := (cut_in_several effective_block_size).

(** The counters after a list of arrays. *)
Lemma foldl_count_array ivariant st (arrays : list (list Z)) :
  let st' := foldl (count_array ivariant) st arrays in
  num_cuts st' = num_cuts st ∧ num_convs st' = num_convs st ∧
  num_convs_augmented st' = num_convs_augmented st ∧
  num_segments_augmented st'
    = num_segments_augmented st + Z.of_nat (length arrays) ∧
  num_segments st'
    = num_segments st
      + (if bool_decide (ivariant = 0%nat) then Z.of_nat (length arrays) else 0).
Proof.
  revert st. induction arrays as [|a arrays IH]; intros st; simpl.
  - split_and!; try done; [lia|case_bool_decide; lia].
  - destruct (IH (count_array ivariant st a)) as (-> & -> & -> & -> & ->).
    simpl. split_and!; try done; [lia|case_bool_decide; lia].
Qed.

(** A variant is counted only if cutting it raises nothing. *)
Lemma count_variant_Ok st ivariant text_ids st' :
  count_variant' st ivariant text_ids = Ok st' →
  (cut_text text_ids).2 = Ok () ∧
  let st1 := foldl (count_array ivariant) st (seg_array <$> (cut_text text_ids).1) in
  num_cuts st'
    = num_cuts st1 + (if cut_in_several' text_ids then 1 else 0) ∧
  num_convs st' = num_convs st1 ∧
  num_convs_augmented st' = num_convs_augmented st1 + 1 ∧
  num_segments_augmented st' = num_segments_augmented st1 ∧
  num_segments st' = num_segments st1 ∧
  min_len st' = min_len st1 ∧ max_len st' = max_len st1.
Proof.
  unfold count_variant.
  destruct ((cut_text text_ids).2) as [[]| |] eqn:Hst; simpl; [|done..].
  intros [= <-]. simpl. split; [done|].
  split_and!; try done. destruct (cut_in_several' text_ids); lia.
Qed.

Lemma count_variants_totals variants : ∀ st ivariant st',
  count_variants' st ivariant variants = Ok st' →
  num_convs st' = num_convs st ∧
  num_convs_augmented st'
    = num_convs_augmented st + Z.of_nat (length variants) ∧
  num_segments_augmented st'
    = num_segments_augmented st
      + Z.of_nat (sum_list_with (λ v, length (cut_text v).1) variants) ∧
  num_segments st'
    = num_segments st
      + (if bool_decide (ivariant = 0%nat)
         then Z.of_nat (from_option (λ v, length (cut_text v).1) 0%nat
                          (head variants))
         else 0) ∧
  num_cuts st'
    = num_cuts st
      + Z.of_nat (length (filter (λ v, cut_in_several' v = true) variants)).
Proof.
  induction variants as [|v variants IH]; intros st ivariant st'.
  - intros [= <-]. simpl. split_and!; try lia. case_bool_decide; lia.
  - cbn [count_variants].
    destruct (count_variant' st ivariant v) as [st1| |] eqn:Hv;
      cbn [mbind result_bind]; [|done..].
    intros Hrest. cbn [sum_list_with length head from_option].
    apply count_variant_Ok in Hv as (_ & Hc & Hn & Hna & Hsa & Hs & _ & _).
    destruct (foldl_count_array ivariant st (seg_array <$> (cut_text v).1))
      as (Hc0 & Hn0 & Hna0 & Hsa0 & Hs0).
    rewrite length_fmap in Hsa0, Hs0.
    apply IH in Hrest as (-> & -> & -> & -> & ->).
    rewrite bool_decide_eq_false_2 by lia.
    rewrite filter_cons.
    assert (num_segments st1
            = num_segments st
              + (if bool_decide (ivariant = 0%nat)
                 then Z.of_nat (length (cut_text v).1) else 0)) as Hs1 by lia.
    split_and!; try lia.
    destruct (cut_in_several' v) eqn:Hcut.
    + rewrite decide_True by done. simpl. lia.
    + rewrite decide_False by done. lia.
Qed.

Lemma count_texts_totals texts : ∀ st st',
  count_texts' st texts = Ok st' →
  num_convs st' = num_convs st + Z.of_nat (length texts) ∧
  num_convs_augmented st'
    = num_convs_augmented st + Z.of_nat (length (concat texts)) ∧
  num_segments_augmented st'
    = num_segments_augmented st
      + Z.of_nat (sum_list_with (λ v, length (cut_text v).1) (concat texts)) ∧
  num_segments st'
    = num_segments st
      + Z.of_nat (sum_list_with
          (λ variants, from_option (λ v, length (cut_text v).1) 0%nat
                         (head variants)) texts) ∧
  num_cuts st'
    = num_cuts st
      + Z.of_nat (length (filter (λ v, cut_in_several' v = true) (concat texts))).
Proof.
  induction texts as [|variants texts IH]; intros st st'.
  - intros [= <-]. simpl. lia.
  - cbn [count_texts].
    destruct (count_variants' st 0 variants) as [st1| |] eqn:Hv;
      cbn [mbind result_bind]; [|done..].
    intros Hrest. cbn [sum_list_with length concat].
    apply count_variants_totals in Hv as (Hn & Hna & Hsa & Hs & Hc).
    rewrite bool_decide_eq_true_2 in Hs by done.
    apply IH in Hrest as (-> & -> & -> & -> & ->). simpl.
    rewrite sum_list_with_app, filter_app, !length_app.
    split_and!; lia.
Qed.

(** X3. When a pass over a dataset ends normally, its counters are
    exact: [num_convs] is the number of conversations,
    [num_convs_augmented] the number of variants,
    [num_segments_augmented] the number of arrays the chunker emits
    over all variants, [num_segments] the number emitted for the first
    variant of each conversation, and [num_cuts] the number of variants
    longer than the block size. *)
Theorem count_texts_exact (texts : list (list (list Z))) st' :
  count_texts tok tag_token_prefix tag_token_suffix padding cut_around_turns
    effective_block_size init_counters texts = Ok st' →
  num_convs st' = Z.of_nat (length texts) ∧
  num_convs_augmented st' = Z.of_nat (length (concat texts)) ∧
  num_segments_augmented st'
    = Z.of_nat (sum_list_with (λ v, length (cut_text v).1) (concat texts)) ∧
  num_segments st'
    = Z.of_nat (sum_list_with
        (λ variants, from_option (λ v, length (cut_text v).1) 0%nat
                       (head variants)) texts) ∧
  num_cuts st'
    = Z.of_nat (length (filter (λ v, cut_in_several effective_block_size v = true)
                          (concat texts))).
Proof.
  intros H. apply count_texts_totals in H. simpl in H. lia.
Qed.

(** Every array emitted for a text has at most [bs] tokens, and
    exactly [bs] with padding on, whenever a block size [bs] is set. *)
Lemma cut_text_array_len bs text_ids s :
  effective_block_size = Some bs → bs ≠ 0 →
  s ∈ (cut_text text_ids).1 →
  Py.len (seg_array s) ≤ bs ∧ (padding = true → Py.len (seg_array s) = bs).
Proof.
  intros -> Hbs. unfold cut_in_chunks.
  destruct (Z.eqb_spec bs 0) as [|_]; [done|]. simpl.
  destruct (Z.ltb_spec bs (Py.len text_ids)) as [Hlong|Hshort].
  - intros (c' & -> & Hin & Hw)%chunk_loop_emitted. simpl.
    apply len_padded. by apply len_selec.
  - simpl. intros ->%list_elem_of_singleton. simpl.
    destruct (Z.eqb_spec bs 0) as [|_]; [done|]. simpl.
    destruct padding; simpl; [|split; [done|done]].
    destruct (Z.ltb_spec (Py.len text_ids) bs).
    + rewrite len_pad_right by lia. lia.
    + lia.
Qed.

(** With turn-aware cutting, or naive cutting with blocks above the
    10-token floor, a text never goes without a segment. *)
Lemma cut_text_nonempty text_ids :
  (∀ bs, effective_block_size = Some bs →
         0 ≤ bs ∧ (cut_around_turns = true ∨ 10 < bs)) →
  (1 ≤ length (cut_text text_ids).1)%nat.
Proof.
  intros Hebs. unfold cut_in_chunks.
  destruct effective_block_size as [bs|]; [|simpl; lia].
  destruct (Hebs bs eq_refl) as [Hbs Hmode].
  destruct (Z.eqb_spec bs 0) as [|Hbs0]; [simpl; lia|]. simpl.
  destruct (Z.ltb_spec bs (Py.len text_ids)) as [Hlong|]; [|simpl; lia].
  destruct (length text_ids) as [|fuel] eqn:Hlen;
    [unfold Py.len in Hlong; lia|].
  simpl. destruct (Z.ltb_spec 0 (Py.len text_ids)); [|lia].
  unfold iend at 1. simpl.
  destruct (Z.ltb_spec 0 (0 + bs - Py.len (@nil Z))) as [_|Hw];
    [|unfold Py.len in Hw; simpl in Hw; lia].
  simpl.
  assert (negb cut_around_turns
          && (Py.len (selec text_ids bs {| istart := 0; add_prefix := [] |}) <=? 10)
          = false) as ->.
  { destruct Hmode as [->|Hbig]; [done|]. apply andb_false_iff. right.
    apply Z.leb_gt. unfold selec, iend. simpl.
    rewrite slice_len by (unfold Py.len; simpl; lia).
    unfold Py.len in *. simpl. lia. }
  destruct (negb cut_around_turns); simpl; [lia|].
  destruct (next_cursor _ _ _ _ _ _); simpl; lia.
Qed.

Lemma sum_list_with_ge_length {A} (f : A → nat) (l : list A) :
  (∀ x, 1 ≤ f x)%nat → (length l ≤ sum_list_with f l)%nat.
Proof.
  intros Hf. induction l as [|x l IH]; simpl; [done|].
  specialize (Hf x). lia.
Qed.

(** X4. With turn-aware cutting (or naive cutting with blocks above
    the 10-token floor) and a block size that is not negative, a pass
    that ends normally counts at least one segment per variant; so a
    dataset with at least one variant never leads the second pass to
    the division by zero: its layout is computed. *)
Theorem count_texts_enough_segments (texts : list (list (list Z))) st'
    (multiple_of bs' : Z) :
  (∀ bs, effective_block_size = Some bs →
         0 ≤ bs ∧ (cut_around_turns = true ∨ 10 < bs)) →
  count_texts tok tag_token_prefix tag_token_suffix padding cut_around_turns
    effective_block_size init_counters texts = Ok st' →
  num_convs_augmented st' ≤ num_segments_augmented st' ∧
  (concat texts ≠ [] → 0 < multiple_of →
     ∃ it layout,
       plan_files (num_segments_augmented st') multiple_of bs'
       = Sized (it, layout)).
Proof.
  intros Hebs (_ & Hna & Hsa & _)%count_texts_totals. simpl in Hna, Hsa.
  pose proof (sum_list_with_ge_length (λ v, length (cut_text v).1) (concat texts)
                (λ v, cut_text_nonempty v Hebs)) as Hsum.
  split; [lia|]. intros Hne Hm.
  assert (0 < num_segments_augmented st') as HN.
  { assert (0 < length (concat texts))%nat
      by (destruct (concat texts); simpl; [done|lia]).
    lia. }
  unfold plan_files.
  destruct (ceil_div_pos (num_segments_augmented st') multiple_of Hm)
    as (p0 & -> & Hp0). simpl.
  destruct (fit_segments_per_file_spec (num_segments_augmented st') multiple_of
              (Z.to_nat (num_segments_augmented st')) 1 p0)
    as (it & p & -> & Hit & Hp & H512 & Hmin); [done|done|lia|lia|lia|].
  simpl. destruct (ceil_div_pos (num_segments_augmented st') p) as (nf & -> & _);
    [nia|].
  simpl. by eauto.
Qed.

Abbreviation lengths_within' := (lengths_within padding).

Lemma count_array_lengths bs ivariant st (a : list Z) :
  bs ≤ 10 ^ 10 →
  Py.len a ≤ bs → (padding = true → Py.len a = bs) →
  lengths_within' bs st → lengths_within' bs (count_array ivariant st a).
Proof.
  intros Hbig Hle Hpad. pose proof (len_nonneg a) as Hnn.
  intros [(Hn & Hmin & Hmax)|(Hn & Hmm & Hmax & Hp)]; right; simpl.
  - rewrite Hn, Hmin, Hmax. split_and!; try lia.
    intros Hpd. specialize (Hpad Hpd). lia.
  - split_and!; try lia.
    intros Hpd. specialize (Hpad Hpd). specialize (Hp Hpd). lia.
Qed.

Lemma foldl_count_array_lengths bs ivariant (arrays : list (list Z)) : ∀ st,
  bs ≤ 10 ^ 10 →
  Forall (λ a, Py.len a ≤ bs ∧ (padding = true → Py.len a = bs)) arrays →
  lengths_within' bs st →
  lengths_within' bs (foldl (count_array ivariant) st arrays).
Proof.
  induction arrays as [|a arrays IH]; intros st Hbig Hall Hst; simpl; [done|].
  inversion Hall as [|? ? [Ha Hp] Hall']; subst.
  apply IH; [done|done|]. by apply count_array_lengths.
Qed.

Lemma count_variant_lengths bs st ivariant text_ids st' :
  effective_block_size = Some bs → bs ≠ 0 → bs ≤ 10 ^ 10 →
  count_variant' st ivariant text_ids = Ok st' →
  lengths_within' bs st → lengths_within' bs st'.
Proof.
  intros Hebs Hbs Hbig (_ & _ & _ & _ & Hsa & _ & Hmin & Hmax)%count_variant_Ok Hst.
  assert (lengths_within' bs
            (foldl (count_array ivariant) st (seg_array <$> (cut_text text_ids).1)))
    as Hfold.
  { apply foldl_count_array_lengths; [done| |done].
    apply Forall_fmap, Forall_forall. intros s Hs.
    by apply (cut_text_array_len bs text_ids). }
  unfold lengths_within in *. rewrite Hsa, Hmin, Hmax. exact Hfold.
Qed.

Lemma count_variants_lengths bs variants : ∀ st ivariant st',
  effective_block_size = Some bs → bs ≠ 0 → bs ≤ 10 ^ 10 →
  count_variants' st ivariant variants = Ok st' →
  lengths_within' bs st → lengths_within' bs st'.
Proof.
  induction variants as [|v variants IH]; intros st ivariant st' Hebs Hbs Hbig.
  - by intros [= <-].
  - cbn [count_variants].
    destruct (count_variant' st ivariant v) as [st1| |] eqn:Hv;
      cbn [mbind result_bind]; [|done..].
    intros Hrest Hst. eapply IH; [done..|].
    by eapply count_variant_lengths.
Qed.

(** X5. With a block size set (at most 1e10, the initial [min_len]),
    a pass that ends normally leaves [min_len] and [max_len] either as
    initialised, when no segment was counted, or with
    [0 ≤ min_len ≤ max_len ≤ effective_block_size]; with padding on
    both are then equal to the block size. *)
Theorem count_texts_lengths (texts : list (list (list Z))) bs st' :
  effective_block_size = Some bs → bs ≠ 0 → bs ≤ 10 ^ 10 →
  count_texts tok tag_token_prefix tag_token_suffix padding cut_around_turns
    effective_block_size init_counters texts = Ok st' →
  (num_segments_augmented st' = 0 ∧ min_len st' = 10 ^ 10 ∧ max_len st' = 0) ∨
  (0 < num_segments_augmented st' ∧
   0 ≤ min_len st' ≤ max_len st' ∧ max_len st' ≤ bs ∧
   (padding = true → min_len st' = bs ∧ max_len st' = bs)).
Proof.
  intros Hebs Hbs Hbig.
  assert (∀ st, lengths_within' bs st →
            count_texts' st texts = Ok st' → lengths_within' bs st') as Hgen.
  { clear -Hebs Hbs Hbig. induction texts as [|variants texts IH]; intros st Hst.
    - by intros [= <-].
    - cbn [count_texts].
      destruct (count_variants' st 0 variants) as [st1| |] eqn:Hv;
        cbn [mbind result_bind]; [|done..].
      apply IH.
      by apply (count_variants_lengths bs variants st 0%nat st1) in Hv. }
  intros Hrun. apply (Hgen init_counters); [by left|done].
Qed.

End CounterFacts.

(** ** The files of a dataset folder *)

Section FileSelectionFacts.

Context (filename_full filename_train filename_dev : string).

Abbreviation record_files' := (record_files filename_dev).
Abbreviation selected' :=
  (files_for_this_dataset filename_train filename_dev).

(** An entry depends on its key only, which makes recording a
    selection idempotent. *)
Lemma record_files_lookup selected : ∀ (all_files : gmap string bool) f,
  record_files' selected all_files !! f
  = if bool_decide (f ∈ selected) then Some (bool_decide (f = filename_dev))
    else all_files !! f.
Proof.
  induction selected as [|g selected IH]; intros all_files f; simpl; [done|].
  rewrite IH. destruct (decide (f ∈ selected)) as [Hin|Hnin].
  - rewrite (bool_decide_eq_true_2 (f ∈ selected)) by done.
    by rewrite (bool_decide_eq_true_2 (f ∈ g :: selected)) by (by right).
  - rewrite (bool_decide_eq_false_2 (f ∈ selected)) by done.
    destruct (decide (f = g)) as [->|Hne].
    + rewrite lookup_insert_eq.
      by rewrite (bool_decide_eq_true_2 (g ∈ g :: selected)) by left.
    + rewrite lookup_insert_ne by done.
      rewrite (bool_decide_eq_false_2 (f ∈ g :: selected)); [done|].
      by intros [->|?]%elem_of_cons.
Qed.

Lemma record_files_idemp selected (all_files : gmap string bool) :
  record_files' selected (record_files' selected all_files)
  = record_files' selected all_files.
Proof.
  apply map_eq. intros f. rewrite !record_files_lookup.
  by case_bool_decide.
Qed.

(** The loop over the folder records the selection once, however many
    times [filename_full] is listed. *)
Lemma collect_folder_once files0 files (all_files : gmap string bool) :
  foldl (λ m file,
           if bool_decide (file = filename_full)
           then record_files' (selected' file files0) m else m)
        all_files files
  = if bool_decide (filename_full ∈ files)
    then record_files' (selected' filename_full files0) all_files
    else all_files.
Proof.
  revert all_files. induction files as [|file files IH]; intros all_files; simpl.
  - done.
  - rewrite IH. destruct (decide (file = filename_full)) as [->|Hne].
    + rewrite (bool_decide_eq_true_2 (filename_full = filename_full)) by done.
      rewrite (bool_decide_eq_true_2 (filename_full ∈ filename_full :: files))
        by left.
      case_bool_decide; [by rewrite record_files_idemp|done].
    + rewrite (bool_decide_eq_false_2 (file = filename_full)) by done.
      destruct (decide (filename_full ∈ files)) as [Hin|Hnin].
      * rewrite (bool_decide_eq_true_2 (filename_full ∈ files)) by done.
        by rewrite (bool_decide_eq_true_2 (filename_full ∈ file :: files))
          by (by right).
      * rewrite (bool_decide_eq_false_2 (filename_full ∈ files)) by done.
        rewrite (bool_decide_eq_false_2 (filename_full ∈ file :: files)); [done|].
        intros [?|?]%elem_of_cons; [congruence|done].
Qed.

(** X6. With three distinct file names, what a folder contributes to
    [all_files] depends only on which of them it holds: nothing
    without [filename_full]; otherwise [filename_train] if it is there
    and [filename_full] if not, as training data, and [filename_dev]
    if it is there, as validation data — except that a folder with
    [filename_dev] but no [filename_train] contributes [filename_dev]
    alone: [filename_full] is removed and no training data is left. *)
Theorem collect_folder_table (files : list string) :
  filename_full ≠ filename_train → filename_full ≠ filename_dev →
  filename_train ≠ filename_dev →
  collect_folder filename_full filename_train filename_dev files ∅
  = if bool_decide (filename_full ∈ files) then
      if bool_decide (filename_train ∈ files) then
        if bool_decide (filename_dev ∈ files)
        then <[filename_dev := true]> (<[filename_train := false]> ∅)
        else <[filename_train := false]> ∅
      else
        if bool_decide (filename_dev ∈ files)
        then <[filename_dev := true]> ∅
        else <[filename_full := false]> ∅
    else ∅.
Proof.
  intros Hft Hfd Htd. unfold collect_folder. rewrite collect_folder_once.
  case_bool_decide as Hfull; [|done].
  unfold files_for_this_dataset.
  destruct (decide (filename_train ∈ files)) as [Htr|Htr];
    [rewrite !(bool_decide_eq_true_2 (filename_train ∈ files)) by done
    |rewrite !(bool_decide_eq_false_2 (filename_train ∈ files)) by done];
    (destruct (decide (filename_dev ∈ files)) as [Hdv|Hdv];
      [rewrite !(bool_decide_eq_true_2 (filename_dev ∈ files)) by done
      |rewrite !(bool_decide_eq_false_2 (filename_dev ∈ files)) by done]);
    simpl.
  - rewrite (bool_decide_eq_false_2 (filename_full ∈ _)).
    2:{ intros [?|[?|[]%elem_of_nil]%elem_of_cons]%elem_of_cons; congruence. }
    simpl. rewrite (bool_decide_eq_false_2 (filename_train = _)) by done.
    by rewrite bool_decide_eq_true_2.
  - by rewrite (bool_decide_eq_false_2 (filename_train = _)).
  - rewrite (bool_decide_eq_true_2 (filename_full ∈ _)) by left.
    simpl. rewrite (bool_decide_eq_true_2 (filename_full = _)) by done.
    simpl. by rewrite bool_decide_eq_true_2.
  - by rewrite (bool_decide_eq_false_2 (filename_full = _)).
Qed.

End FileSelectionFacts.

Lemma collect_folder_table_witness :
  "full.txt"%string ≠ "train.txt"%string ∧ "full.txt"%string ≠ "dev.txt"%string ∧
  "train.txt"%string ≠ "dev.txt"%string ∧
  collect_folder "full.txt" "train.txt" "dev.txt"
    ["notes.md"; "full.txt"; "dev.txt"]%string ∅
  = if bool_decide ("full.txt"%string ∈ ["notes.md"; "full.txt"; "dev.txt"]%string)
    then
      if bool_decide ("train.txt"%string ∈ ["notes.md"; "full.txt"; "dev.txt"]%string)
      then
        if bool_decide ("dev.txt"%string ∈ ["notes.md"; "full.txt"; "dev.txt"]%string)
        then <[("dev.txt"%string) := true]> (<[("train.txt"%string) := false]> ∅)
        else <[("train.txt"%string) := false]> ∅
      else
        if bool_decide ("dev.txt"%string ∈ ["notes.md"; "full.txt"; "dev.txt"]%string)
        then <[("dev.txt"%string) := true]> ∅
        else <[("full.txt"%string) := false]> ∅
    else ∅.
Proof.
  assert ("full.txt"%string ≠ "train.txt"%string) as H1 by discriminate.
  assert ("full.txt"%string ≠ "dev.txt"%string) as H2 by discriminate.
  assert ("train.txt"%string ≠ "dev.txt"%string) as H3 by discriminate.
  split; [done|]. split; [done|]. split; [done|].
  exact (collect_folder_table "full.txt" "train.txt" "dev.txt"
           ["notes.md"; "full.txt"; "dev.txt"]%string H1 H2 H3).
Defined.

Example collect_folder_dev_only :
  collect_folder "full.txt" "train.txt" "dev.txt"
    ["notes.md"; "full.txt"; "dev.txt"]%string ∅
  = <[("dev.txt"%string) := true]> ∅.
Proof. by vm_compute. Qed.

(** ** The file-name prefix of a dataset *)

(** X7. The prefix of the output files holds no "/": it names files
    directly inside the destination folder.  It is the dataset name
    itself when that has no "/", and is longer than it by one
    character for each "/" otherwise. *)
Theorem replace_slash_no_slash (set_name : string) :
  ("/"%char ∉ list_ascii_of_string (replace_slash set_name)) ∧
  ("/"%char ∉ list_ascii_of_string set_name → replace_slash set_name = set_name) ∧
  (String.length (replace_slash set_name)
   = String.length set_name
     + length (filter (λ c, c = "/"%char) (list_ascii_of_string set_name)))%nat.
Proof.
  induction set_name as [|c rest (IH1 & IH2 & IH3)]; simpl.
  - split_and!; [by intros ?%elem_of_nil|done|done].
  - case_bool_decide as Hc; simpl.
    + subst c. split_and!.
      * intros [?|[?|?]%elem_of_cons]%elem_of_cons; [done|done|by apply IH1].
      * intros Hno. exfalso. apply Hno. left.
      * rewrite IH3, filter_cons, decide_True by done. simpl. lia.
    + split_and!.
      * intros [?|?]%elem_of_cons; [congruence|by apply IH1].
      * intros Hno. f_equal. apply IH2. intros ?. apply Hno. by right.
      * rewrite IH3, filter_cons, decide_False by done. done.
Qed.

Example replace_slash_ex :
  replace_slash "ACSYNT/part1" = "ACSYNT--part1"%string ∧
  replace_slash "a/b" = replace_slash "a--b".
Proof. done. Qed.

(** ** Validation and training *)

Section TrainingFacts.
Local Open Scope Z_scope.

Lemma gradient_accumulation_iters_eq : gradient_accumulation_iters = 32.
Proof. reflexivity. Qed.

(** X8. [validate] writes the loss of the [k]-th batch at index [k] of
    a buffer of [eval_iters] = 100 zeros and has no bound on [k]: a
    validation loader of more than 100 batches raises IndexError, and
    with fewer batches the remaining entries stay zero (the mean is
    taken over all 100). *)
Theorem validate_losses_buffer {A} (zero : A) (batch_losses : list A) :
  validate_losses zero batch_losses
  = if bool_decide (length batch_losses ≤ eval_iters)%nat
    then Ok (batch_losses
               ++ replicate (eval_iters - length batch_losses)%nat zero)
    else Raise IndexError.
Proof.
  unfold validate_losses.
  assert (∀ bl (losses : list A) (k : nat),
            (k ≤ length losses)%nat →
            validate_fill losses k bl
            = if bool_decide (k + length bl ≤ length losses)%nat
              then Ok (take k losses ++ bl ++ drop (k + length bl) losses)
              else Raise IndexError) as Hfill.
  { induction bl as [|x bl IH]; intros losses k Hk; simpl.
    - rewrite bool_decide_eq_true_2 by lia.
      by rewrite Nat.add_0_r, take_drop.
    - case_bool_decide as Hlt.
      + rewrite IH by (rewrite length_insert; lia).
        rewrite length_insert.
        case_bool_decide; case_bool_decide; try lia; [|done].
        f_equal.
        rewrite (take_S_r _ k x) by (apply list_lookup_insert_eq; lia).
        rewrite take_insert_ge by lia.
        rewrite drop_insert_lt by lia.
        replace (S k + length bl)%nat with (k + S (length bl))%nat by lia.
        by rewrite <- app_assoc.
      + by rewrite bool_decide_eq_false_2 by lia. }
  rewrite Hfill by lia. rewrite length_replicate, take_0, !Nat.add_0_l.
  case_bool_decide; [|done].
  by rewrite app_nil_l, drop_replicate.
Qed.

Lemma div_succ_step i :
  0 ≤ i →
  (i + 1) `div` 32
  = if (i + 1) `mod` 32 =? 0 then i `div` 32 + 1 else i `div` 32.
Proof.
  intros Hi. destruct (Z.eqb_spec ((i + 1) `mod` 32) 0);
    Z.div_mod_to_equations; lia.
Qed.

Lemma mod_block_of_steps i :
  0 ≤ i → (i + 1) `mod` 32 = 0 →
  ((i `div` 32 + 1) `mod` 1000 =? 0) = ((i + 1) `mod` 32000 =? 0).
Proof.
  intros Hi Hm.
  destruct (Z.eqb_spec ((i `div` 32 + 1) `mod` 1000) 0),
           (Z.eqb_spec ((i + 1) `mod` 32000) 0);
    try done; Z.div_mod_to_equations; lia.
Qed.

Lemma mod_block_step i : (i + 1) `mod` 32000 = 0 → (i + 1) `mod` 32 = 0.
Proof. intros Hm. Z.div_mod_to_equations. lia. Qed.

(** The loop from iteration [i] on, for a state whose step count is
    that of [i] completed iterations. *)
Lemma train_loop_from has_val batches : ∀ i st,
  0 ≤ i → step_count st = i `div` 32 →
  let e := Z.max i (Z.min (i + Z.of_nat batches) max_iters) in
  let st' := train_loop has_val batches i st in
  step_count st' = e `div` 32 ∧
  optimizer_steps st'
    = optimizer_steps st
      ++ filter (λ j, (j + 1) `mod` 32 = 0) (seqZ i (e - i)) ∧
  checkpoints st'
    = checkpoints st
      ++ filter (λ j, (j + 1) `mod` 32000 = 0) (seqZ i (e - i)) ∧
  validations st'
    = validations st
      ++ (if has_val
          then filter (λ j, (j + 1) `mod` 32000 = 0) (seqZ i (e - i))
          else []).
Proof.
  induction batches as [|batches IH]; intros i st Hi Hst; cbn zeta.
  - replace (Z.max i (Z.min (i + Z.of_nat 0) max_iters)) with i by lia.
    rewrite Z.sub_diag, seqZ_nil by lia. simpl.
    rewrite !app_nil_r. by destruct has_val; rewrite ?app_nil_r.
  - cbn [train_loop]. destruct (Z.leb_spec max_iters i) as [Hmax|Hlt].
    + replace (Z.max i (Z.min (i + Z.of_nat (S batches)) max_iters)) with i by lia.
      rewrite Z.sub_diag, seqZ_nil by lia. simpl.
      rewrite !app_nil_r. by destruct has_val; rewrite ?app_nil_r.
    + replace (Z.max i (Z.min (i + Z.of_nat (S batches)) max_iters))
        with (Z.max (i + 1) (Z.min (i + 1 + Z.of_nat batches) max_iters)) by lia.
      set (e := Z.max (i + 1) (Z.min (i + 1 + Z.of_nat batches) max_iters)).
      assert (step_count (train_iteration has_val i st) = (i + 1) `div` 32) as Hst'.
      { unfold train_iteration. simpl. change gradient_accumulation_iters with 32.
        rewrite div_succ_step by done.
        destruct ((i + 1) `mod` 32 =? 0); simpl; lia. }
      destruct (IH (i + 1) (train_iteration has_val i st) ltac:(lia) Hst')
        as (Hsc & Hos & Hck & Hva). fold e in Hsc, Hos, Hck, Hva.
      rewrite Hsc, Hos, Hck, Hva. clear Hsc Hos Hck Hva IH.
      rewrite (seqZ_cons i (e - i)) by lia.
      replace (Z.succ i) with (i + 1) by lia.
      replace (Z.pred (e - i)) with (e - (i + 1)) by lia.
      rewrite !filter_cons.
      unfold train_iteration. cbn [step_count optimizer_steps checkpoints validations].
      change gradient_accumulation_iters with 32.
      change save_interval with 1000. change eval_interval with 1000.
      destruct (Z.eqb_spec ((i + 1) `mod` 32) 0) as [Hm|Hm]; cbn [negb andb].
      * rewrite Hst, mod_block_of_steps by done.
        rewrite (decide_True (P := (i + 1) `mod` 32 = 0)) by done.
        destruct (Z.eqb_spec ((i + 1) `mod` 32000) 0) as [Hb|Hb].
        -- rewrite !(decide_True (P := (i + 1) `mod` 32000 = 0)) by done.
           rewrite andb_true_r. split_and!; try done;
             rewrite <- ?app_assoc; try done.
           destruct has_val; simpl; by rewrite <- ?app_assoc.
        -- rewrite !(decide_False (P := (i + 1) `mod` 32000 = 0)) by done.
           rewrite andb_false_r. split_and!; try done;
             rewrite <- ?app_assoc; done.
      * rewrite (decide_False (P := (i + 1) `mod` 32 = 0)) by done.
        assert ((i + 1) `mod` 32000 ≠ 0) as Hb
          by (intros Hb; by apply mod_block_step in Hb).
        rewrite !(decide_False (P := (i + 1) `mod` 32000 = 0)) by done.
        rewrite andb_false_r. done.
Qed.

(** X9. Over a loader of [n] batches the training loop runs
    [e = min n max_iters] iterations, takes an optimizer step at the
    iterations [j] with [j + 1] a multiple of
    [gradient_accumulation_iters] = 32 and at no other, ends with
    [step_count = e // 32] (the micro-batches after the last full
    group of 32 are accumulated but never applied), and saves a
    checkpoint inside the loop (validating too, when there is a
    validation loader) exactly when [j + 1] is a multiple of 32000:
    with [max_iters] = 50000 only at iteration 31999. *)
Theorem train_loop_schedule (has_val : bool) (n : nat) :
  let e := Z.min (Z.of_nat n) max_iters in
  let st := train_loop has_val n 0 init_train_state in
  step_count st = e `div` gradient_accumulation_iters ∧
  optimizer_steps st
    = filter (λ j, (j + 1) `mod` gradient_accumulation_iters = 0) (seqZ 0 e) ∧
  checkpoints st
    = filter (λ j, (j + 1) `mod` (gradient_accumulation_iters * save_interval) = 0)
        (seqZ 0 e) ∧
  validations st = (if has_val then checkpoints st else []) ∧
  (∀ j, j ∈ checkpoints st ↔ j = 31999 ∧ 32000 ≤ Z.of_nat n).
Proof.
  cbn zeta.
  destruct (train_loop_from has_val n 0 init_train_state ltac:(lia) eq_refl)
    as (Hsc & Hos & Hck & Hva).
  replace (Z.max 0 (Z.min (0 + Z.of_nat n) max_iters))
    with (Z.min (Z.of_nat n) max_iters) in * by (unfold max_iters; lia).
  rewrite Z.sub_0_r in *. simpl in Hos, Hck, Hva.
  change gradient_accumulation_iters with 32. change save_interval with 1000.
  change (32 * 1000) with 32000.
  split_and!; [done|done|done|by rewrite Hva, Hck|].
  intros j. rewrite Hck, list_elem_of_filter.
  rewrite list_elem_of_lookup. setoid_rewrite lookup_seqZ.
  unfold max_iters. split.
  - intros (Hm & k & -> & Hk). Z.div_mod_to_equations. lia.
  - intros [-> Hn]. split; [done|]. exists (Z.to_nat 31999). lia.
Qed.

End TrainingFacts.

Section PipelineFacts.
Local Open Scope Z_scope.

(** X10. Preparation and training fit together: with padding on and
    the block size [config.block_size + 1] that [prepare] passes,
    every emitted array is a full training row.  Its [input_ids]
    are its first [block_size] tokens, its [targets] the same row
    without its first token, both of [block_size] tokens, so that the
    target at each position is the token that follows the input
    there, and no token of the row is left out. *)
Theorem segment_is_training_row (tok : Tokenizer)
    (tag_token_prefix tag_token_suffix : Z) (cut_around_turns : bool)
    (text_ids : list Z) (block_size : Z) (s : segment) :
  0 ≤ block_size →
  s ∈ (cut_in_chunks tok tag_token_prefix tag_token_suffix true cut_around_turns
         text_ids (Some (prepared_block_size block_size))).1 →
  Py.len (seg_array s) = block_size + 1 ∧
  input_ids block_size (seg_array s) = take (Z.to_nat block_size) (seg_array s) ∧
  targets block_size (seg_array s) = drop 1 (seg_array s) ∧
  Py.len (input_ids block_size (seg_array s)) = block_size ∧
  Py.len (targets block_size (seg_array s)) = block_size ∧
  ∀ i : nat,
    targets block_size (seg_array s) !! i = seg_array s !! S i.
Proof.
  intros Hbs Hs. unfold prepared_block_size in Hs.
  destruct (cut_text_array_len tok tag_token_prefix tag_token_suffix true
              cut_around_turns (Some (block_size + 1)) (block_size + 1)
              text_ids s eq_refl ltac:(lia) Hs) as [_ Hlen].
  specialize (Hlen eq_refl).
  assert (input_ids block_size (seg_array s)
          = take (Z.to_nat block_size) (seg_array s)) as Hin.
  { unfold input_ids. rewrite slice_take_drop by lia. rewrite drop_0.
    f_equal. lia. }
  assert (targets block_size (seg_array s) = drop 1 (seg_array s)) as Htg.
  { unfold targets. rewrite slice_take_drop by lia.
    change (Z.to_nat 1) with 1%nat. apply take_ge.
    rewrite length_drop. unfold Py.len in Hlen. lia. }
  split_and!; [done|done|done| | |].
  - rewrite Hin. unfold Py.len in *. rewrite length_take. lia.
  - rewrite Htg. unfold Py.len in *. rewrite length_drop. lia.
  - intros i. rewrite Htg. by rewrite lookup_drop.
Qed.

Lemma segment_is_training_row_witness :
  0 ≤ 3 ∧
  {| seg_istart := 4; seg_prefix := [1; 2]; seg_body := [22; 23];
     seg_array := [1; 2; 22; 23] |}
    ∈ (cut_in_chunks example_tokenizer 1 2 true true one_turn_ids
         (Some (prepared_block_size 3))).1 ∧
  Py.len [1; 2; 22; 23] = 3 + 1 ∧
  input_ids 3 [1; 2; 22; 23] = take (Z.to_nat 3) [1; 2; 22; 23] ∧
  targets 3 [1; 2; 22; 23] = drop 1 [1; 2; 22; 23] ∧
  Py.len (input_ids 3 [1; 2; 22; 23]) = 3 ∧
  Py.len (targets 3 [1; 2; 22; 23]) = 3 ∧
  ∀ i : nat, targets 3 [1; 2; 22; 23] !! i = [1; 2; 22; 23] !! S i.
Proof.
  assert (0 ≤ 3) as Hbs by lia.
  assert ({| seg_istart := 4; seg_prefix := [1; 2]; seg_body := [22; 23];
             seg_array := [1; 2; 22; 23] |}
            ∈ (cut_in_chunks example_tokenizer 1 2 true true one_turn_ids
                 (Some (prepared_block_size 3))).1) as Hin
    by (vm_compute; right; left).
  split; [done|]. split; [done|].
  exact (segment_is_training_row example_tokenizer 1 2 true one_turn_ids 3 _ Hbs Hin).
Defined.

Example training_row_ex :
  input_ids 3 [1; 2; 22; 23] = [1; 2; 22] ∧ targets 3 [1; 2; 22; 23] = [2; 22; 23].
Proof. done. Qed.

(** A small dataset: a conversation with two variants, one with one. *)
Lemma count_texts_exact_witness :
  count_texts example_tokenizer 1 2 true true (Some 4) init_counters
    [[one_turn_ids; [20; 21]]; [two_turn_ids]]
  = Ok {| num_cuts := 2; num_convs := 2; num_convs_augmented := 3;
          num_segments_augmented := 7; num_segments := 6;
          min_len := 4; max_len := 4 |} ∧
  2 = Z.of_nat (length [[one_turn_ids; [20; 21]]; [two_turn_ids]]) ∧
  3 = Z.of_nat (length (concat [[one_turn_ids; [20; 21]]; [two_turn_ids]])) ∧
  7 = Z.of_nat
        (sum_list_with
           (λ v, length (cut_in_chunks example_tokenizer 1 2 true true v (Some 4)).1)
           (concat [[one_turn_ids; [20; 21]]; [two_turn_ids]])) ∧
  6 = Z.of_nat
        (sum_list_with
           (λ variants,
              from_option
                (λ v, length (cut_in_chunks example_tokenizer 1 2 true true v
                                (Some 4)).1)
                0%nat (head variants))
           [[one_turn_ids; [20; 21]]; [two_turn_ids]]) ∧
  2 = Z.of_nat
        (length (filter (λ v, cut_in_several (Some 4) v = true)
                   (concat [[one_turn_ids; [20; 21]]; [two_turn_ids]]))).
Proof.
  assert (count_texts example_tokenizer 1 2 true true (Some 4) init_counters
            [[one_turn_ids; [20; 21]]; [two_turn_ids]]
          = Ok {| num_cuts := 2; num_convs := 2; num_convs_augmented := 3;
                  num_segments_augmented := 7; num_segments := 6;
                  min_len := 4; max_len := 4 |}) as Hrun
    by (vm_compute; reflexivity).
  split; [exact Hrun|].
  destruct (count_texts_exact example_tokenizer 1 2 true true (Some 4) _ _ Hrun)
    as (H1 & H2 & H3 & H4 & H5).
  simpl in H1, H2, H3, H4, H5.
  split_and!; [exact H1|exact H2|exact H3|exact H4|exact H5].
Defined.

Lemma count_texts_enough_segments_witness :
  (∀ bs, Some 4 = Some bs → 0 ≤ bs ∧ (true = true ∨ 10 < bs)) ∧
  count_texts example_tokenizer 1 2 true true (Some 4) init_counters
    [[one_turn_ids; [20; 21]]; [two_turn_ids]]
  = Ok {| num_cuts := 2; num_convs := 2; num_convs_augmented := 3;
          num_segments_augmented := 7; num_segments := 6;
          min_len := 4; max_len := 4 |} ∧
  3 ≤ 7 ∧
  ∃ it layout, plan_files 7 8 4 = Sized (it, layout).
Proof.
  assert (∀ bs, Some 4 = Some bs → 0 ≤ bs ∧ (true = true ∨ 10 < bs)) as Hebs.
  { intros bs [= <-]. split; [lia|by left]. }
  assert (count_texts example_tokenizer 1 2 true true (Some 4) init_counters
            [[one_turn_ids; [20; 21]]; [two_turn_ids]]
          = Ok {| num_cuts := 2; num_convs := 2; num_convs_augmented := 3;
                  num_segments_augmented := 7; num_segments := 6;
                  min_len := 4; max_len := 4 |}) as Hrun
    by (vm_compute; reflexivity).
  split; [exact Hebs|]. split; [exact Hrun|].
  destruct (count_texts_enough_segments example_tokenizer 1 2 true true (Some 4)
              _ _ 8 4 Hebs Hrun) as [Hle Hplan].
  split; [exact Hle|]. apply Hplan; [discriminate|lia].
Defined.

Lemma count_texts_lengths_witness :
  Some 4 = Some 4 ∧ 4 ≠ 0 ∧ 4 ≤ 10 ^ 10 ∧
  count_texts example_tokenizer 1 2 true true (Some 4) init_counters
    [[one_turn_ids; [20; 21]]; [two_turn_ids]]
  = Ok {| num_cuts := 2; num_convs := 2; num_convs_augmented := 3;
          num_segments_augmented := 7; num_segments := 6;
          min_len := 4; max_len := 4 |} ∧
  ((7 = 0 ∧ 4 = 10 ^ 10 ∧ 4 = 0) ∨
   (0 < 7 ∧ 0 ≤ 4 ≤ 4 ∧ 4 ≤ 4 ∧ (true = true → 4 = 4 ∧ 4 = 4))).
Proof.
  assert (4 ≠ 0) as Hbs by lia.
  assert (4 ≤ 10 ^ 10) as Hbig by (vm_compute; discriminate).
  assert (count_texts example_tokenizer 1 2 true true (Some 4) init_counters
            [[one_turn_ids; [20; 21]]; [two_turn_ids]]
          = Ok {| num_cuts := 2; num_convs := 2; num_convs_augmented := 3;
                  num_segments_augmented := 7; num_segments := 6;
                  min_len := 4; max_len := 4 |}) as Hrun
    by (vm_compute; reflexivity).
  split; [done|]. split; [done|]. split; [done|]. split; [exact Hrun|].
  exact (count_texts_lengths example_tokenizer 1 2 true true (Some 4)
           _ 4 _ eq_refl Hbs Hbig Hrun).
Defined.

End PipelineFacts.

(** ** More on the chunking loop *)

Section ChunkerOutcomes.
Local Open Scope Z_scope.

Context (tok : Tokenizer).
Context (tag_token_prefix tag_token_suffix : Z).
Context (padding : bool).
Context (text_ids : list Z).

Abbreviation loop cut :=
  (chunk_loop tok tag_token_prefix tag_token_suffix padding cut text_ids).
Abbreviation next :=
  (next_cursor tok tag_token_prefix tag_token_suffix text_ids).
Abbreviation seg_at := (segment_at tok padding text_ids).
Abbreviation look := (lookahead text_ids).

(** Each emitted segment uses up one unit of fuel. *)
Lemma chunk_loop_count cut bs fuel c :
  (length (loop cut bs fuel c).1 ≤ fuel)%nat.
Proof.
  revert c. induction fuel as [|fuel IH]; intros c; simpl.
  - destruct (_ <? _); simpl; lia.
  - destruct (_ <? _); simpl; [|lia].
    destruct (negb (_ <? _)); simpl; [lia|].
    destruct (negb cut && _); simpl; [lia|].
    destruct (negb cut); simpl.
    + specialize (IH {| istart := istart c + bs; add_prefix := add_prefix c |}). lia.
    + destruct (next bs c) as [c'| |]; simpl; [specialize (IH c')|..]; lia.
Qed.

(** A loop that did not run out of fuel does the same with more. *)
Lemma chunk_loop_more_fuel cut bs fuel : ∀ c fuel',
  (loop cut bs fuel c).2 ≠ OutOfFuel → (fuel ≤ fuel')%nat →
  loop cut bs fuel' c = loop cut bs fuel c.
Proof.
  induction fuel as [|fuel IH]; intros c fuel' Hok Hle.
  - simpl in *. destruct fuel'; simpl; by destruct (_ <? _).
  - destruct fuel' as [|fuel']; [lia|]. simpl in *.
    destruct (_ <? _); [|done].
    destruct (negb (_ <? _)); [done|].
    destruct (negb cut && _); [done|].
    destruct (negb cut); simpl in *.
    + by rewrite IH by (done || lia).
    + destruct (next bs c) as [c'| |]; simpl in *; [|done..].
      by rewrite IH by (done || lia).
Qed.

(** X11. The chunking loop terminates: with any fuel from
    [len(text_ids)] on, the model's loop gives one and the same run,
    which is not cut short, and a run emits at most [len(text_ids)]
    segments (one, for a text that fits the block size). *)
Theorem cut_in_chunks_terminates (cut : bool) (bs : Z) (fuel : nat) :
  (length text_ids ≤ fuel)%nat →
  chunk_loop tok tag_token_prefix tag_token_suffix padding cut text_ids bs fuel
    {| istart := 0; add_prefix := [] |}
  = chunk_loop tok tag_token_prefix tag_token_suffix padding cut text_ids bs
      (length text_ids) {| istart := 0; add_prefix := [] |} ∧
  (cut_in_chunks tok tag_token_prefix tag_token_suffix padding cut text_ids
     (Some bs)).2 ≠ OutOfFuel ∧
  (length (cut_in_chunks tok tag_token_prefix tag_token_suffix padding cut
             text_ids (Some bs)).1 ≤ Nat.max 1 (length text_ids))%nat.
Proof.
  intros Hfuel. split_and!.
  - apply chunk_loop_more_fuel; [|done].
    apply chunk_loop_total. simpl. unfold Py.len. lia.
  - apply cut_in_chunks_total.
  - unfold cut_in_chunks. destruct (_ && _); simpl; [|lia].
    pose proof (chunk_loop_count cut bs (length text_ids)
                  {| istart := 0; add_prefix := [] |}). lia.
Qed.

Ltac unfold_next :=
  unfold next_cursor, assert, mbind, result_bind;
  repeat case_match; simplify_eq/=.

(** In Case 1.1 the token under the new cursor is the opening tag found
    in the lookahead. *)
Lemma turn_start_token bs c e start_of_turn :
  0 ≤ istart c → istart c < iend bs c → 0 ≤ e →
  last (Py.where_eq (Py.slice (look bs c) 0 e) tag_token_prefix)
    = Some start_of_turn →
  0 ≤ start_of_turn < e ∧
  look bs c !! Z.to_nat start_of_turn = Some tag_token_prefix ∧
  Py.get text_ids (istart c + start_of_turn) = Ok tag_token_prefix.
Proof.
  intros Hc Hw He [[Hs0 Hlen] Hl]%last_where_eq_Some.
  rewrite slice_lookup in Hl by lia.
  case_bool_decide as Hlt; [|done]. simpl in Hl.
  assert (start_of_turn < e) by lia.
  split; [lia|]. split; [done|].
  apply lookahead_lookup in Hl as [Hk Hl]; [|done..].
  destruct (get_in_range text_ids (istart c + start_of_turn)) as (x & -> & Hx).
  { apply lookup_lt_Some in Hl. unfold Py.len. lia. }
  replace (Z.to_nat (istart c + start_of_turn))
    with (Z.to_nat (istart c) + Z.to_nat start_of_turn)%nat in Hx by lia.
  congruence.
Qed.

(** How one iteration can end. *)
Lemma next_cursor_outcomes bs c :
  0 ≤ istart c → istart c < iend bs c →
  (∃ c', next bs c = Ok c' ∧ istart c < istart c') ∨
  next bs c = Raise (AssertionError TurnStartFound) ∨
  next bs c = Raise (AssertionError CursorAdvanced) ∨
  next bs c = Raise IndexError.
Proof.
  intros Hc Hw.
  destruct (next bs c) as [c'|e|] eqn:Hnext.
  - left. exists c'. split; [done|]. by eapply next_cursor_gt.
  - right. revert Hnext. unfold_next; intros; simplify_eq/=; eauto;
      repeat match goal with
        | H : Py.get _ _ = Raise _ |- _ => apply get_Raise in H; subst; eauto
        | H : naive_advance _ _ _ _ = Raise _ |- _ =>
            apply naive_advance_Raise in H; subst; eauto
        end.
    exfalso.
    match goal with
    | H : last (Py.where_eq (Py.slice _ 0 ?e) _) = Some _,
      H' : last (Py.where_eq _ tag_token_suffix) = Some ?e |- _ =>
        apply last_where_eq_Some in H' as [[He _] _];
        apply (turn_start_token bs c) in H as (_ & _ & Hget); [|done..]
    end.
    match goal with
    | H : Py.get _ _ = Ok ?t, H' : (?t =? _) = false |- _ =>
        rewrite Hget in H; simplify_eq; by rewrite Z.eqb_refl in H'
    end.
  - by apply next_cursor_total in Hnext.
Qed.

Lemma chunk_loop_outcomes cut bs fuel : ∀ c,
  0 ≤ istart c →
  let r := (loop cut bs fuel c).2 in
  r = OutOfFuel ∨ r = Ok () ∨
  r = Raise (AssertionError WindowNonEmpty) ∨
  (cut = true ∧
   (r = Raise (AssertionError TurnStartFound) ∨
    r = Raise (AssertionError CursorAdvanced) ∨
    r = Raise IndexError)).
Proof.
  induction fuel as [|fuel IH]; intros c Hc; simpl.
  - destruct (_ <? _); simpl; eauto.
  - destruct (_ <? _); simpl; [|by eauto].
    destruct (Z.ltb_spec (istart c) (iend bs c)) as [Hw|]; simpl; [|by eauto].
    destruct (negb cut && _); simpl; [by eauto|].
    destruct cut; simpl.
    + destruct (next_cursor_outcomes bs c Hc Hw)
        as [(c' & -> & Hgt)|[-> |[-> | ->]]]; simpl; eauto 10.
      apply IH. lia.
    + apply IH. simpl. apply window_bs_pos in Hw.
      pose proof (len_nonneg (add_prefix c)). lia.
Qed.

(** X12. A run of the chunker ends normally or with one of four
    failures: the assertion on the window (line 213), the assertion
    that an opening tag precedes the closing tag found (line 247), the
    assertion that the cursor advanced (line 273), or an IndexError of
    the walk back to a word boundary.  The assertion of line 254 (the
    new cursor is on an opening tag) never fails.  With turn-aware
    cutting off only the window assertion can fail, and it does not
    when the block size is not negative. *)
Theorem cut_in_chunks_outcomes (cut : bool) (ebs : option Z) :
  let r := (cut_in_chunks tok tag_token_prefix tag_token_suffix padding cut
              text_ids ebs).2 in
  (r = Ok () ∨ r = Raise (AssertionError WindowNonEmpty) ∨
   r = Raise (AssertionError TurnStartFound) ∨
   r = Raise (AssertionError CursorAdvanced) ∨ r = Raise IndexError) ∧
  (cut = false → r = Ok () ∨ r = Raise (AssertionError WindowNonEmpty)) ∧
  (cut = false → (∀ bs, ebs = Some bs → 0 ≤ bs) → r = Ok ()).
Proof.
  cbn zeta. unfold cut_in_chunks.
  destruct ebs as [bs|]; [|simpl; by eauto 10].
  destruct (negb (bs =? 0) && (bs <? Py.len text_ids)) eqn:Hlong;
    [|simpl; by eauto 10].
  pose proof (chunk_loop_outcomes cut bs (length text_ids)
                {| istart := 0; add_prefix := [] |} ltac:(simpl; lia)) as Hout.
  pose proof (chunk_loop_total tok tag_token_prefix tag_token_suffix padding
                text_ids cut bs (length text_ids)
                {| istart := 0; add_prefix := [] |}
                ltac:(simpl; unfold Py.len; lia)) as Htot.
  cbn zeta in Hout.
  split_and!.
  - destruct Hout as [?|[?|[?|(_ & [?|[?|?]])]]]; eauto 10. done.
  - intros ->. destruct Hout as [?|[?|[?|(? & _)]]]; eauto; done.
  - intros -> Hbs. specialize (Hbs bs eq_refl).
    apply andb_true_iff in Hlong as [Hbs0%negb_true_iff%Z.eqb_neq Hlt%Z.ltb_lt].
    destruct (decide (10 < bs)) as [Hbig|Hsmall].
    + destruct (naive_loop tok tag_token_prefix tag_token_suffix padding text_ids
                  bs (length text_ids) {| istart := 0; add_prefix := [] |})
        as (segs & -> & _); simpl; [done|done|done|unfold Py.len; lia|done].
    + destruct (length text_ids) as [|fuel] eqn:Hlen;
        [unfold Py.len in Hlt; rewrite Hlen in Hlt; simpl in Hlt; lia|].
      simpl. destruct (Z.ltb_spec 0 (Py.len text_ids)); [|lia].
      unfold iend at 1. simpl.
      destruct (Z.ltb_spec 0 (0 + bs - Py.len (@nil Z))) as [_|Hw];
        [|unfold Py.len in Hw; simpl in Hw; lia].
      simpl.
      destruct (Z.leb_spec
                  (Py.len (selec text_ids bs {| istart := 0; add_prefix := [] |}))
                  10) as [|Hgt]; [done|].
      exfalso. pose proof (len_selec text_ids bs {| istart := 0; add_prefix := [] |}) as Hle.
      unfold iend in Hle. simpl in Hle. unfold Py.len at 1 in Hle. simpl in Hle.
      lia.
Qed.

(** *** The carried prefix *)

Lemma slice_prefix_of_slice (l : list Z) a b n :
  0 ≤ a → a ≤ b → 0 ≤ n → n ≤ Py.len (Py.slice l a b) →
  Py.slice (Py.slice l a b) 0 n = Py.slice l a (a + n).
Proof.
  intros Ha Hab Hn Hlen.
  pose proof (slice_len_le l a b Hab).
  rewrite (slice_take_drop (Py.slice l a b)) by lia.
  rewrite (slice_take_drop l a b), (slice_take_drop l a (a + n)) by lia.
  rewrite drop_0, take_take. f_equal. lia.
Qed.

(** Where the prefix of the next cursor comes from. *)
Lemma next_cursor_prefix_inv bs c c' :
  next bs c = Ok c' →
  add_prefix c' = [] ∨ add_prefix c' = add_prefix c ∨
  ∃ end_of_turn,
    last (Py.where_eq (look bs c) tag_token_suffix) = Some end_of_turn ∧
    last (Py.where_eq (Py.slice (look bs c) 0 end_of_turn) tag_token_prefix)
      = Some 0 ∧
    add_prefix c' = Py.slice (look bs c) 0 (end_of_turn + 1).
Proof.
  unfold_next; intros; simplify_eq/=; eauto.
  right; right. eexists. split; [done|]. split; [|done].
  match goal with
  | H : last (Py.where_eq (Py.slice _ 0 _) _) = Some ?s |- _ =>
      pose proof (last_where_eq_Some _ _ _ H) as [[? _] _];
      replace s with 0 in H by lia; exact H
  end.
Qed.

(** A property of the cursors that every iteration keeps holds of the
    cursor of every emitted segment. *)
Lemma chunk_loop_invariant (I : cursor → Prop) cut bs :
  (∀ c c', I c → istart c < Py.len text_ids → istart c < iend bs c →
           cut = true → next bs c = Ok c' → I c') →
  (∀ c, I c → istart c < Py.len text_ids → istart c < iend bs c →
        cut = false →
        I {| istart := istart c + bs; add_prefix := add_prefix c |}) →
  ∀ fuel c s, I c → s ∈ (loop cut bs fuel c).1 →
  ∃ c', s = seg_at bs c' ∧ I c' ∧
        istart c' < Py.len text_ids ∧ istart c' < iend bs c'.
Proof.
  intros Hturn Hnaive fuel.
  induction fuel as [|fuel IH]; intros c s HI; simpl.
  - destruct (_ <? _); simpl; by intros ?%elem_of_nil.
  - destruct (Z.ltb_spec (istart c) (Py.len text_ids)) as [Hlt|];
      [|simpl; by intros ?%elem_of_nil].
    destruct (Z.ltb_spec (istart c) (iend bs c)) as [Hw|]; simpl;
      [|by intros ?%elem_of_nil].
    destruct (negb cut && _); simpl; [by intros ?%elem_of_nil|].
    destruct cut; simpl.
    + destruct (next bs c) as [c'| |] eqn:Hnext; simpl.
      * intros [->|Hin]%elem_of_cons; [by eauto|].
        eapply IH; [|done]. by eapply Hturn.
      * intros ->%list_elem_of_singleton. by eauto.
      * intros ->%list_elem_of_singleton. by eauto.
    + intros [->|Hin]%elem_of_cons; [by eauto|].
      eapply IH; [|done]. by apply Hnaive.
Qed.

(** X13. The prefix carried in front of a segment is empty, or it is a
    run of consecutive tokens of the text that lies before the
    segment's own tokens begin, starts with the opening tag token and
    ends with the closing tag token; it is always shorter than the
    block. *)
Theorem carried_prefix_is_tag_span (cut : bool) (bs : Z) (s : segment) :
  s ∈ (cut_in_chunks tok tag_token_prefix tag_token_suffix padding cut
         text_ids (Some bs)).1 →
  Py.len (seg_prefix s) < Z.max bs 1 ∧
  (seg_prefix s = [] ∨
   (head (seg_prefix s) = Some tag_token_prefix ∧
    last (seg_prefix s) = Some tag_token_suffix ∧
    ∃ j, 0 ≤ j < seg_istart s ∧
         seg_prefix s = Py.slice text_ids j (j + Py.len (seg_prefix s)))).
Proof.
  unfold cut_in_chunks.
  destruct (negb (bs =? 0) && (bs <? Py.len text_ids)) eqn:Hlong.
  2:{ simpl. intros ->%list_elem_of_singleton. simpl.
      split; [unfold Py.len; simpl; lia|by left]. }
  set (I := λ c : cursor,
         0 ≤ istart c ∧
         (add_prefix c = [] ∨
          (head (add_prefix c) = Some tag_token_prefix ∧
           last (add_prefix c) = Some tag_token_suffix ∧
           ∃ j, 0 ≤ j < istart c ∧
                add_prefix c
                  = Py.slice text_ids j (j + Py.len (add_prefix c))))).
  intros Hin.
  apply (chunk_loop_invariant I) in Hin as (c' & -> & [_ HI] & _ & Hw).
  - simpl. split; [apply window_bs_pos in Hw; lia|done].
  - intros c c' [Hc HI] Hlt Hw _ Hnext.
    pose proof (next_cursor_gt _ _ _ _ _ _ _ Hnext) as Hgt.
    split; [lia|].
    destruct (next_cursor_prefix_inv _ _ _ Hnext)
      as [Hnil|[Hsame|(e & He & Hs & Hpre)]].
    + by left.
    + rewrite Hsame. destruct HI as [?|(? & ? & j & ? & ?)]; [by left|].
      right. split_and!; [done..|]. exists j. split; [lia|done].
    + right.
      apply last_where_eq_Some in He as [[He0 Helen] He].
      apply last_where_eq_Some in Hs as [_ Hs].
      rewrite slice_lookup in Hs by lia.
      case_bool_decide; [|done]. simpl in Hs.
      assert (Py.len (Py.slice (look bs c) 0 (e + 1)) = e + 1) as Hlen.
      { rewrite slice_len by lia. lia. }
      rewrite Hpre. split_and!.
      * rewrite head_lookup, slice_lookup by lia.
        rewrite bool_decide_true by lia. done.
      * rewrite last_lookup.
        replace (pred (length (Py.slice (look bs c) 0 (e + 1))))
          with (Z.to_nat e) by (unfold Py.len in Hlen; lia).
        rewrite slice_lookup by lia.
        rewrite bool_decide_true by lia. done.
      * exists (istart c). split; [lia|].
        rewrite Hlen. unfold lookahead.
        assert (istart c ≤ iend bs c + 10) by lia.
        rewrite slice_prefix_of_slice; [f_equal; lia|lia..|].
        fold (look bs c). lia.
  - intros c [Hc HI] Hlt Hw _. simpl. apply window_bs_pos in Hw.
    pose proof (len_nonneg (add_prefix c)).
    split; simpl; [lia|]. destruct HI as [?|(? & ? & j & ? & ?)]; [by left|].
    right. split_and!; [done..|]. exists j. split; [lia|done].
  - split; [simpl; lia|by left].
Qed.

(** *** Naive cutting tiles the text *)

Lemma naive_loop_tiles bs fuel : ∀ c (k : nat) s,
  (loop false bs fuel c).1 !! k = Some s →
  s = seg_at bs {| istart := istart c + Z.of_nat k * bs;
                   add_prefix := add_prefix c |} ∧
  10 < Py.len (seg_prefix s ++ seg_body s).
Proof.
  induction fuel as [|fuel IH]; intros c k s; simpl.
  - destruct (_ <? _); simpl; by rewrite lookup_nil.
  - destruct (_ <? _); simpl; [|by rewrite lookup_nil].
    destruct (_ <? _); simpl; [|by rewrite lookup_nil].
    destruct (Z.leb_spec (Py.len (selec text_ids bs c)) 10) as [|Hlen]; simpl;
      [by rewrite lookup_nil|].
    destruct k as [|k]; simpl.
    + intros [= <-]. split; [|done].
      f_equal. destruct c; simpl. f_equal. lia.
    + intros Hk. apply IH in Hk as [-> Hk]. split; [|done].
      simpl. do 2 f_equal. lia.
Qed.

Lemma naive_loop_length bs fuel : ∀ c,
  10 < bs → add_prefix c = [] → 0 ≤ istart c →
  Py.len text_ids - istart c ≤ Z.of_nat fuel →
  let m := Z.max 0 (Py.len text_ids - istart c) in
  Z.of_nat (length (loop false bs fuel c).1)
    = m `div` bs + (if 10 <? m `mod` bs then 1 else 0).
Proof.
  intros c Hbs. revert c.
  induction fuel as [|fuel IH]; intros c Hpre Hc Hfuel m; subst m.
  - simpl. destruct (Z.ltb_spec (istart c) (Py.len text_ids)); [lia|].
    simpl. rewrite Z.max_l by lia. done.
  - simpl. destruct (Z.ltb_spec (istart c) (Py.len text_ids)) as [Hlt|]; simpl.
    2:{ rewrite Z.max_l by lia. done. }
    rewrite Z.max_r by lia.
    unfold iend at 1. rewrite Hpre.
    change (Py.len (@nil Z)) with 0.
    destruct (Z.ltb_spec (istart c) (istart c + bs - 0)); [|lia]. simpl.
    assert (Py.len (selec text_ids bs c)
            = Z.min bs (Py.len text_ids - istart c)) as ->.
    { unfold selec, iend. rewrite Hpre. simpl.
      change (Py.len (@nil Z)) with 0.
      rewrite slice_len by lia. lia. }
    set (n := Py.len text_ids - istart c) in *.
    destruct (Z.leb_spec (Z.min bs n) 10) as [Hshort|Hlong]; simpl.
    + rewrite Z.div_small, Z.mod_small by lia.
      destruct (Z.ltb_spec 10 n); lia.
    + rewrite Nat2Z.inj_succ.
      rewrite (IH {| istart := istart c + bs; add_prefix := [] |});
        simpl; [|done|lia|lia].
      fold n. replace (Py.len text_ids - (istart c + bs)) with (n - bs) by lia.
      destruct (decide (bs ≤ n)) as [Hge|Hlt'].
      * rewrite Z.max_r by lia.
        rewrite (mod_sub_block bs n) by lia.
        replace (n - bs) with (n + (-1) * bs) by lia.
        rewrite Z.div_add by lia. lia.
      * rewrite Z.max_l by lia.
        rewrite Z.div_0_l, Z.mod_0_l by lia.
        rewrite Z.div_small, (Z.mod_small n) by lia.
        destruct (Z.ltb_spec 10 n); [|lia].
        destruct (Z.ltb_spec 10 0); lia.
Qed.

Lemma naive_loop_small_block bs fuel c :
  bs ≤ 10 → istart c < iend bs c → (loop false bs fuel c).1 = [].
Proof.
  intros Hbs Hw. destruct fuel as [|fuel]; simpl.
  - by destruct (_ <? _).
  - destruct (_ <? _); [|done].
    destruct (Z.ltb_spec (istart c) (iend bs c)); [|lia]. simpl.
    pose proof (len_selec text_ids bs c Hw).
    destruct (Z.leb_spec (Py.len (selec text_ids bs c)) 10); [done|lia].
Qed.

(** X14. Without turn-aware cutting the segments of a text longer than
    the block tile it: segment number k (from 0) starts at token
    k * block, has no carried prefix, holds the tokens
    [k * block, (k + 1) * block) that exist, and more than 10 of them.
    When the block is longer than 10 tokens the number of segments is
    the number of whole blocks, plus one if more than 10 tokens are
    left over; with a block of at most 10 tokens nothing is emitted. *)
Theorem naive_chunks_tile (bs : Z) :
  bs < Py.len text_ids →
  let segs := (cut_in_chunks tok tag_token_prefix tag_token_suffix padding
                 false text_ids (Some bs)).1 in
  (∀ (k : nat) s, segs !! k = Some s →
     bs ≠ 0 →
     seg_istart s = Z.of_nat k * bs ∧ seg_prefix s = [] ∧
     seg_body s = Py.slice text_ids (Z.of_nat k * bs) (Z.of_nat k * bs + bs) ∧
     10 < Py.len (seg_body s)) ∧
  (10 < bs →
     Z.of_nat (length segs)
       = Py.len text_ids `div` bs
         + (if 10 <? Py.len text_ids `mod` bs then 1 else 0)) ∧
  (bs ≠ 0 → bs ≤ 10 → segs = []).
Proof.
  intros Hlong. cbn zeta. unfold cut_in_chunks.
  pose proof (len_nonneg text_ids) as Hlen.
  split_and!.
  - intros k s Hk Hbs.
    rewrite (proj2 (Z.eqb_neq bs 0) Hbs), (proj2 (Z.ltb_lt _ _) Hlong) in Hk.
    simpl in Hk. apply naive_loop_tiles in Hk as [-> Hk]. simpl in *.
    unfold iend. simpl. change (Py.len (@nil Z)) with 0.
    split_and!; [lia|done|f_equal; lia|].
    revert Hk. unfold iend. simpl. change (Py.len (@nil Z)) with 0.
    by rewrite Z.add_0_l.
  - intros Hbs.
    rewrite (proj2 (Z.eqb_neq bs 0)), (proj2 (Z.ltb_lt _ _) Hlong) by lia.
    simpl.
    rewrite (naive_loop_length bs (length text_ids)
               {| istart := 0; add_prefix := [] |});
      simpl; [|done|done|lia|unfold Py.len; lia].
    rewrite Z.sub_0_r, Z.max_r by lia. done.
  - intros Hbs Hsmall.
    rewrite (proj2 (Z.eqb_neq bs 0) Hbs), (proj2 (Z.ltb_lt _ _) Hlong). simpl.
    destruct (decide (0 < bs)).
    + apply naive_loop_small_block; [done|].
      unfold iend. simpl. change (Py.len (@nil Z)) with 0. lia.
    + destruct (length text_ids) as [|fuel] eqn:Hl; simpl.
      * by destruct (_ <? _).
      * destruct (_ <? _); [|done]. unfold iend. simpl.
        change (Py.len (@nil Z)) with 0.
        destruct (Z.ltb_spec 0 (0 + bs - 0)); [lia|done].
Qed.

(** *** The assertion that a turn start is found *)

Lemma where_from_last_max tok' l : ∀ i j,
  last (Py.where_from tok' l i) = Some j →
  ∀ k, k ∈ Py.where_from tok' l i → k ≤ j.
Proof.
  induction l as [|x l IH]; intros i j; simpl; [done|].
  destruct (x =? tok').
  - destruct (Py.where_from tok' l (i + 1)) as [|z w] eqn:Hw.
    + intros [= <-] k ->%list_elem_of_singleton. lia.
    + rewrite last_cons_cons. intros Hlast k [->|Hk]%elem_of_cons.
      * assert (j ∈ Py.where_from tok' l (i + 1)) as [? _]%where_from_spec; [|lia].
        rewrite Hw. apply last_Some in Hlast as (l' & ->).
        apply elem_of_app. right. left.
      * specialize (IH (i + 1) j). rewrite Hw in IH. by apply IH.
  - apply IH.
Qed.

(** [candidates[-1]] is the index of the last occurrence. *)
Lemma last_where_eq_max l tok' j (k : nat) :
  last (Py.where_eq l tok') = Some j → l !! k = Some tok' → Z.of_nat k ≤ j.
Proof.
  intros Hlast Hk. eapply where_from_last_max; [exact Hlast|].
  apply where_from_spec. rewrite Z.sub_0_r, Nat2Z.id. split; [lia|done].
Qed.

Lemma last_where_eq_at l tok' (e : nat) :
  l !! e = Some tok' → (∀ k : nat, (e < k)%nat → l !! k ≠ Some tok') →
  last (Py.where_eq l tok') = Some (Z.of_nat e).
Proof.
  intros He Hmax.
  destruct (last (Py.where_eq l tok')) as [j|] eqn:Hlast.
  - pose proof (last_where_eq_max _ _ _ _ Hlast He).
    apply last_where_eq_Some in Hlast as [[? _] Hj].
    destruct (decide (e < Z.to_nat j)%nat) as [Hlt|]; [by apply Hmax in Hlt|].
    f_equal. lia.
  - apply last_where_eq_None in Hlast. exfalso. apply Hlast.
    by eapply list_elem_of_lookup_2.
Qed.

Ltac no_such_raise :=
  try done;
  match goal with
  | H : naive_advance _ _ _ _ = Raise _ |- _ =>
      by apply naive_advance_Raise in H
  | H : Py.get _ _ = Raise _ |- _ => by apply get_Raise in H
  end.

Lemma next_cursor_TurnStartFound_iff bs c :
  next bs c = Raise (AssertionError TurnStartFound) ↔
  ∃ e : nat,
    look bs c !! e = Some tag_token_suffix ∧
    (∀ k : nat, (e < k)%nat → look bs c !! k ≠ Some tag_token_suffix) ∧
    (∀ j : nat, (j < e)%nat → look bs c !! j ≠ Some tag_token_prefix).
Proof.
  split.
  - intros Hnext.
    destruct (last (Py.where_eq (look bs c) tag_token_suffix)) as [e|] eqn:He.
    2:{ revert Hnext. unfold next_cursor. rewrite He.
        unfold assert, mbind, result_bind.
        repeat case_match; intros; simplify_eq/=; no_such_raise. }
    destruct (last (Py.where_eq (Py.slice (look bs c) 0 e) tag_token_prefix))
      as [s|] eqn:Hs.
    { revert Hnext. unfold next_cursor. rewrite He, Hs.
      unfold assert, mbind, result_bind.
      repeat case_match; intros; simplify_eq/=; no_such_raise. }
    pose proof (last_where_eq_Some _ _ _ He) as [[He0 _] Hle].
    exists (Z.to_nat e). split_and!; [done| |].
    + intros k Hk Hlook. pose proof (last_where_eq_max _ _ _ _ He Hlook). lia.
    + intros j Hj Hlook. apply last_where_eq_None in Hs. apply Hs.
      apply (list_elem_of_lookup_2 _ j). rewrite slice_lookup by lia.
      rewrite bool_decide_true by lia. done.
  - intros (e & He & Hmax & Hno).
    unfold next_cursor.
    rewrite (last_where_eq_at _ _ _ He Hmax).
    assert (last (Py.where_eq (Py.slice (look bs c) 0 (Z.of_nat e))
                    tag_token_prefix) = None) as ->.
    { apply last_where_eq_None. intros (j & Hj)%list_elem_of_lookup.
      rewrite slice_lookup in Hj by lia. case_bool_decide; [|done].
      apply (Hno j); [lia|done]. }
    done.
Qed.

(** X15. The search for the start of the last turn fails (assertion of
    line 247) exactly when the closing tag token occurs in the
    lookahead and the opening tag token does not occur before its last
    occurrence.  When this is so for the first window of a text longer
    than the block, the turn-aware run emits the first segment and stops
    with that failure. *)
Theorem turn_start_assertion (bs : Z) (c : cursor) :
  (next_cursor tok tag_token_prefix tag_token_suffix text_ids bs c
     = Raise (AssertionError TurnStartFound) ↔
   ∃ e : nat,
     lookahead text_ids bs c !! e = Some tag_token_suffix ∧
     (∀ k : nat, (e < k)%nat →
        lookahead text_ids bs c !! k ≠ Some tag_token_suffix) ∧
     (∀ j : nat, (j < e)%nat →
        lookahead text_ids bs c !! j ≠ Some tag_token_prefix)) ∧
  (0 < bs → bs < Py.len text_ids →
   c = {| istart := 0; add_prefix := [] |} →
   next_cursor tok tag_token_prefix tag_token_suffix text_ids bs c
     = Raise (AssertionError TurnStartFound) →
   cut_in_chunks tok tag_token_prefix tag_token_suffix padding true text_ids
     (Some bs)
   = ([segment_at tok padding text_ids bs c],
      Raise (AssertionError TurnStartFound))).
Proof.
  split; [apply next_cursor_TurnStartFound_iff|].
  intros Hbs Hlong -> Hnext. unfold cut_in_chunks.
  rewrite (proj2 (Z.eqb_neq bs 0)), (proj2 (Z.ltb_lt _ _) Hlong) by lia.
  simpl.
  destruct (length text_ids) as [|fuel] eqn:Hlen;
    [unfold Py.len in Hlong; rewrite Hlen in Hlong; simpl in Hlong; lia|].
  simpl. destruct (Z.ltb_spec 0 (Py.len text_ids)); [|lia].
  unfold iend at 1. simpl. change (Py.len (@nil Z)) with 0.
  destruct (Z.ltb_spec 0 (0 + bs - 0)); [|lia]. simpl.
  by rewrite Hnext.
Qed.

End ChunkerOutcomes.

Section ChunkerOutcomeInstances.
Local Open Scope Z_scope.

Lemma cut_in_chunks_terminates_witness :
  (length two_turn_ids ≤ 100)%nat ∧
  chunk_loop example_tokenizer 1 2 true true two_turn_ids 4 100
    {| istart := 0; add_prefix := [] |}
  = chunk_loop example_tokenizer 1 2 true true two_turn_ids 4
      (length two_turn_ids) {| istart := 0; add_prefix := [] |} ∧
  (cut_in_chunks example_tokenizer 1 2 true true two_turn_ids (Some 4)).2
    ≠ OutOfFuel ∧
  (length (cut_in_chunks example_tokenizer 1%Z 2%Z true true two_turn_ids
             (Some 4%Z)).1
   ≤ Nat.max 1 (length two_turn_ids))%nat.
Proof.
  assert (length two_turn_ids ≤ 100)%nat as Hfuel by (simpl; lia).
  split; [done|].
  exact (cut_in_chunks_terminates example_tokenizer 1 2 true two_turn_ids true 4
           100 Hfuel).
Defined.

Lemma cut_in_chunks_outcomes_witness :
  (cut_in_chunks example_tokenizer 1 2 true false plain_ids (Some 12)).2
    = Ok ().
Proof.
  destruct (cut_in_chunks_outcomes example_tokenizer 1 2 true plain_ids false
              (Some 12)) as (_ & _ & Hok).
  apply Hok; [reflexivity|]. intros bs [= <-]. lia.
Defined.

Lemma carried_prefix_is_tag_span_witness :
  {| seg_istart := 4; seg_prefix := [1; 2]; seg_body := [22; 23];
     seg_array := [1; 2; 22; 23] |}
    ∈ (cut_in_chunks example_tokenizer 1 2 true true one_turn_ids (Some 4)).1 ∧
  Py.len [1; 2] < Z.max 4 1 ∧
  ([1; 2] = [] ∨
   (head [1; 2] = Some 1 ∧ last [1; 2] = Some 2 ∧
    ∃ j, 0 ≤ j < 4 ∧
         [1; 2] = Py.slice one_turn_ids j (j + Py.len [1; 2]))).
Proof.
  assert ({| seg_istart := 4; seg_prefix := [1; 2]; seg_body := [22; 23];
             seg_array := [1; 2; 22; 23] |}
            ∈ (cut_in_chunks example_tokenizer 1 2 true true one_turn_ids
                 (Some 4)).1) as Hin.
  { apply list_elem_of_In. simpl. tauto. }
  split; [exact Hin|].
  exact (carried_prefix_is_tag_span example_tokenizer 1 2 true one_turn_ids
           true 4 _ Hin).
Defined.

Lemma naive_chunks_tile_witness :
  12 < Py.len plain_ids ∧
  (∀ (k : nat) s,
     (cut_in_chunks example_tokenizer 1 2 true false plain_ids (Some 12)).1
       !! k = Some s →
     12 ≠ 0 →
     seg_istart s = Z.of_nat k * 12 ∧ seg_prefix s = [] ∧
     seg_body s = Py.slice plain_ids (Z.of_nat k * 12) (Z.of_nat k * 12 + 12) ∧
     10 < Py.len (seg_body s)) ∧
  Z.of_nat (length (cut_in_chunks example_tokenizer 1 2 true false plain_ids
                      (Some 12)).1) = 2.
Proof.
  assert (12 < Py.len plain_ids) as Hlong by (rewrite len_plain_ids; lia).
  destruct (naive_chunks_tile example_tokenizer 1 2 true plain_ids 12 Hlong)
    as (Htile & Hcount & _).
  split; [exact Hlong|]. split; [exact Htile|].
  rewrite Hcount by lia. reflexivity.
Defined.

Lemma turn_start_assertion_witness :
  cut_in_chunks example_tokenizer 1 2 true true [20; 2; 21; 22; 23; 24]
    (Some 4)
  = ([segment_at example_tokenizer true [20; 2; 21; 22; 23; 24] 4
        {| istart := 0; add_prefix := [] |}],
     Raise (AssertionError TurnStartFound)).
Proof.
  destruct (turn_start_assertion example_tokenizer 1 2 true
              [20; 2; 21; 22; 23; 24] 4 {| istart := 0; add_prefix := [] |})
    as [_ Hrun].
  apply Hrun; [lia|unfold Py.len; simpl; lia|reflexivity|reflexivity].
Defined.

End ChunkerOutcomeInstances.

(** ** The order of the tokenizations does not matter *)

Section CommonPrefixOrder.

Lemma common_prefix_perm (lists lists' : list (list Z)) :
  lists ≡ₚ lists' → common_prefix lists = common_prefix lists'.
Proof.
  intros Hperm.
  destruct (decide (lists = [])) as [->|Hne].
  { by apply Permutation_nil_l in Hperm as ->. }
  assert (lists' ≠ []) as Hne'.
  { intros ->. by apply Permutation_nil_r in Hperm. }
  destruct (common_prefix_spec lists Hne) as (p & -> & Hpre & Hmax).
  destruct (common_prefix_spec lists' Hne') as (p' & -> & Hpre' & Hmax').
  f_equal. apply prefix_length_eq.
  - apply Hmax'. intros l Hl. apply Hpre. by rewrite Hperm.
  - apply prefix_length, Hmax. intros l Hl. apply Hpre'. by rewrite <- Hperm.
Qed.

(** X16. [common_prefix] compares every list with the first one, yet
    its result does not depend on the order of the lists, and neither
    does that of [common_suffix]; on an empty collection both raise
    ValueError (the [min] of an empty list). *)
Theorem common_prefix_order_independent (lists lists' : list (list Z)) :
  lists ≡ₚ lists' →
  common_prefix lists = common_prefix lists' ∧
  common_suffix lists = common_suffix lists' ∧
  (lists = [] →
   common_prefix lists = Raise ValueError ∧
   common_suffix lists = Raise ValueError).
Proof.
  intros Hperm. split_and!.
  - by apply common_prefix_perm.
  - unfold common_suffix.
    by rewrite (common_prefix_perm (reverse <$> lists) (reverse <$> lists'))
      by (by apply fmap_Permutation).
  - by intros ->.
Qed.

Lemma common_prefix_order_independent_witness :
  [[1; 2; 3; 9]; [1; 2; 9]]%Z ≡ₚ [[1; 2; 9]; [1; 2; 3; 9]]%Z ∧
  common_prefix [[1; 2; 3; 9]; [1; 2; 9]]%Z
    = common_prefix [[1; 2; 9]; [1; 2; 3; 9]]%Z ∧
  common_suffix [[1; 2; 3; 9]; [1; 2; 9]]%Z
    = common_suffix [[1; 2; 9]; [1; 2; 3; 9]]%Z.
Proof.
  assert ([[1; 2; 3; 9]; [1; 2; 9]]%Z ≡ₚ [[1; 2; 9]; [1; 2; 3; 9]]%Z) as Hperm
    by apply perm_swap.
  split; [exact Hperm|].
  destruct (common_prefix_order_independent _ _ Hperm) as (Hp & Hs & _).
  split; [exact Hp|exact Hs].
Defined.

End CommonPrefixOrder.
